(** * Elastic state tracking and the resilient run loop

    A shallow embedding of [horovod/common/elastic.py]: the [State] base
    class, its [ObjectState] subclass and the [run_fn] retry loop, followed
    by the properties of the specification that concern them. *)

From stdpp Require Import gmap strings list fin_maps.
From Stdlib Require Import ZArith Lia.

Local Open Scope Z_scope.

(** ** Exceptions and the effect monad *)

(** The exception classes the module raises or catches.  [OtherError] stands
    for every exception class the module does not name. *)
Inductive exn :=
  | HorovodInternalError
  | HostsUpdatedException
  | NotImplementedError
  | AttributeError
  | OtherError (msg : string).

(** How a call ends: with a value or with a raised exception. *)
Inductive result (A : Type) :=
  | Ok (a : A)
  | Raise (e : exn).
Arguments Ok {A} a.
Arguments Raise {A} e.

(** A computation over a mutable store [W].  [None] is a call that never
    comes back (an external call that hangs, a loop that exhausts its
    fuel); a raised exception keeps the store as it was when raised. *)
Definition M (W A : Type) : Type := W → option (result A * W).

#[global] Instance M_ret {W} : MRet (M W) := λ A a w, Some (Ok a, w).

#[global] Instance M_bind {W} : MBind (M W) := λ A B f m w,
  match m w with
  | None => None
  | Some (Ok a, w') => f a w'
  | Some (Raise e, w') => Some (Raise e, w')
  end.

Definition raise {W A} (e : exn) : M W A := λ w, Some (Raise e, w).

Definition modify {W} (f : W → W) : M W unit := λ w, Some (Ok tt, f w).

(** [try: body except e: handler e] where [handler] answers [None] for the
    exception classes that no [except] clause names.  An exception raised
    by a handler is not caught again. *)
Definition try_except {W A} (body : M W A) (handler : exn → option (M W A))
  : M W A := λ w,
  match body w with
  | None => None
  | Some (Ok a, w') => Some (Ok a, w')
  | Some (Raise e, w') =>
      match handler e with
      | Some h => h w'
      | None => Some (Raise e, w')
      end
  end.

(** [try: body finally: cleanup].  The cleanup runs on every way out of the
    body; the body's outcome stands unless the cleanup itself raises. *)
Definition try_finally {W A} (body : M W A) (cleanup : M W unit) : M W A :=
  λ w,
  match body w with
  | None => None
  | Some (r, w') =>
      match cleanup w' with
      | None => None
      | Some (Ok _, w'') => Some (r, w'')
      | Some (Raise e, w'') => Some (Raise e, w'')
      end
  end.

(** The store a computation leaves behind (the store it started from when
    it never comes back). *)
Definition after {W A} (m : M W A) (w : W) : W :=
  match m w with
  | Some (_, w') => w'
  | None => w
  end.

(** ** The types the module is generic in *)

(** [Value]: what an attribute is bound to: a simple object itself, or, for
    an object that can be changed in place, the reference to it, the object
    then living in [Env]; [save], [restore] and [_set_attrs] only ever copy
    bindings.  [Callback]: a zero-argument callable registered for resets.
    [Env]: the part of the process and of the cluster that is not the state
    object. *)
Class Universe := { Value : Type; Callback : Type; Env : Type }.

Section Model.
Context `{U : Universe}.

(** *** class State *)

(** The fields [State.__init__] creates.  [_host_messages] is the
    [queue.Queue], head first. *)
Record State := mkState {
  _host_messages : list Z;
  _last_updated_timestamp : Z;
  _reset_callbacks : list Callback;
}.

Definition State_init : State :=
  {| _host_messages := []; _last_updated_timestamp := 0;
     _reset_callbacks := [] |}.

(** *** The process around the state object *)

(** Modelled from the spec: the [WorkerNotificationManager] of
    [horovod.run.elastic.worker], of which only the calls [init],
    [register_listener] and [remove_listener] appear here.  Listeners are
    object identities. *)
Record WorkerNotificationManager := mkManager {
  initialized : bool;
  listeners : gset nat;
}.

(** The calls the module makes on code it does not own. *)
Inductive call :=
  | CallInit
  | CallRegisterListener (listener : nat)
  | CallRemoveListener (listener : nat)
  | CallReset
  | CallCallback (c : Callback)
  | CallFunc
  | CallBcastDict (d : gmap string Value)
  | CallBcastBool (b : bool).

(** One worker process: the state object [self] (of class [S]), the
    environment, the module-level [notification_manager], and the calls made
    so far on outside code, oldest first. *)
Record World (S : Type) := mkWorld {
  self : S;
  env : Env;
  notification_manager : WorkerNotificationManager;
  calls : list call;
}.
Arguments mkWorld {S}.
Arguments self {S}.
Arguments env {S}.
Arguments notification_manager {S}.
Arguments calls {S}.

Definition set_self {S} (s : S) (w : World S) : World S :=
  mkWorld s (env w) (notification_manager w) (calls w).

Definition set_notification_manager {S} (n : WorkerNotificationManager)
  (w : World S) : World S :=
  mkWorld (self w) (env w) n (calls w).

Definition record_call {S} (c : call) (w : World S) : World S :=
  mkWorld (self w) (env w) (notification_manager w) (calls w ++ [c]).

(** Outside code that is handed the state object (the user computation,
    [reset], the reset callbacks) may do anything to the object and to the
    environment. *)
Definition Ext (S A : Type) : Type := M (S * Env) A.

(** Calling such code: the call is recorded, then it runs. *)
Definition call_ext {S A} (c : call) (f : Ext S A) : M (World S) A := λ w,
  match f (self w, env w) with
  | None => None
  | Some (r, (s', e')) =>
      Some (r, mkWorld s' e' (notification_manager w) (calls w ++ [c]))
  end.

(** The collective primitives act on the environment alone. *)
Definition call_env {S A} (c : call) (f : M Env A) : M (World S) A := λ w,
  match f (env w) with
  | None => None
  | Some (r, e') =>
      Some (r, mkWorld (self w) e' (notification_manager w) (calls w ++ [c]))
  end.

(** Modelled from the spec: [notification_manager.init()], idempotent. *)
Definition notification_manager_init {S} : M (World S) unit := λ w,
  Some (Ok tt,
        record_call CallInit
          (set_notification_manager
             (mkManager true (listeners (notification_manager w))) w)).

(** Modelled from the spec: [notification_manager.register_listener]. *)
Definition register_listener {S} (l : nat) : M (World S) unit := λ w,
  Some (Ok tt,
        record_call (CallRegisterListener l)
          (set_notification_manager
             (mkManager (initialized (notification_manager w))
                        ({[l]} ∪ listeners (notification_manager w))) w)).

(** Modelled from the spec: [notification_manager.remove_listener]. *)
Definition remove_listener {S} (l : nat) : M (World S) unit := λ w,
  Some (Ok tt,
        record_call (CallRemoveListener l)
          (set_notification_manager
             (mkManager (initialized (notification_manager w))
                        (listeners (notification_manager w) ∖ {[l]})) w)).

(** *** The interface of State subclasses *)

(** A class [S] deriving from [State]: it carries the inherited fields and
    gives the four methods the base class leaves abstract. *)
Class StateClass (S : Type) := {
  get_base : S → State;
  set_base : State → S → S;
  save : M (World S) unit;
  restore : M (World S) unit;
  sync : M (World S) unit;
  _sync_host_updates : bool → M (World S) bool;
}.

(** The two accessors of the inherited fields fit together. *)
Class StateLaws (S : Type) {C : StateClass S} : Prop := {
  get_set_base : ∀ b s, get_base (set_base b s) = b;
}.

(** What calling a reset callback does. *)
Class CallbackSem (S : Type) := invoke : Callback → Ext S unit.

(** The callbacks leave an inherited field of the state object alone. *)
Definition callbacks_keep {S A} {C : StateClass S} {I : CallbackSem S}
  (field : State → A) : Prop :=
  ∀ c s e r s' e',
    invoke c (s, e) = Some (r, (s', e')) →
    field (get_base s') = field (get_base s).

Section Methods.
Context {S : Type} {C : StateClass S} {I : CallbackSem S}.

Definition base (w : World S) : State := get_base (self w).

Definition set_base_w (b : State) (w : World S) : World S :=
  set_self (set_base b (self w)) w.

(** [State.register_reset_callbacks]: [list.extend]. *)
Definition register_reset_callbacks (callbacks : list Callback)
  : M (World S) unit :=
  modify (λ w,
    set_base_w
      {| _host_messages := _host_messages (base w);
         _last_updated_timestamp := _last_updated_timestamp (base w);
         _reset_callbacks := _reset_callbacks (base w) ++ callbacks |} w).

(** [State.on_reset]: the [for] loop walks the live list by position, so it
    sees what a callback appends or removes while the loop runs. *)
Fixpoint on_reset_from (fuel i : nat) : M (World S) unit := λ w,
  match _reset_callbacks (base w) !! i with
  | None => Some (Ok tt, w)
  | Some callback =>
      match fuel with
      | O => None
      | Datatypes.S fuel' =>
          (call_ext (CallCallback callback) (invoke callback);;
           on_reset_from fuel' (Datatypes.S i)) w
      end
  end.

Definition on_reset (fuel : nat) : M (World S) unit := on_reset_from fuel 0.

(** Following the spec's words for [on_reset]: every callback of a given
    list invoked in the order of the list, a failure ending the walk. *)
Fixpoint invoke_in_order (callbacks : list Callback) : M (World S) unit :=
  match callbacks with
  | [] => mret tt
  | callback :: rest =>
      call_ext (CallCallback callback) (invoke callback);;
      invoke_in_order rest
  end.

(** [State.on_hosts_updated]: [queue.put]. *)
Definition on_hosts_updated (timestamp : Z) : M (World S) unit :=
  modify (λ w,
    set_base_w
      {| _host_messages := _host_messages (base w) ++ [timestamp];
         _last_updated_timestamp := _last_updated_timestamp (base w);
         _reset_callbacks := _reset_callbacks (base w) |} w).

(** The [while not self._host_messages.empty()] loop of
    [_update_known_hosts], on the queue content, the timestamp field and
    the local [updated]. *)
Fixpoint drain (messages : list Z) (last : Z) (updated : bool) : Z * bool :=
  match messages with
  | [] => (last, updated)
  | timestamp :: rest =>
      if last <? timestamp then drain rest timestamp true
      else drain rest last updated
  end.

(** The loop as a method step: the queue is left empty, the field holds the
    timestamp the loop ended with, the local flag is returned. *)
Definition drain_host_messages : M (World S) bool := λ w,
  let d := drain (_host_messages (base w))
                 (_last_updated_timestamp (base w)) false in
  Some (Ok d.2,
        set_base_w
          {| _host_messages := [];
             _last_updated_timestamp := d.1;
             _reset_callbacks := _reset_callbacks (base w) |} w).

(** [State._update_known_hosts]. *)
Definition _update_known_hosts : M (World S) unit :=
  updated ← drain_host_messages;
  updated ← _sync_host_updates updated;
  if (updated : bool) then raise HostsUpdatedException else mret tt.

(** [State.commit]. *)
Definition commit : M (World S) unit :=
  save;; _update_known_hosts.

End Methods.

(** The base class itself: its abstract methods raise. *)
#[local] Instance State_StateClass : StateClass State := {|
  get_base := id;
  set_base := λ b _, b;
  save := raise NotImplementedError;
  restore := raise NotImplementedError;
  sync := raise NotImplementedError;
  _sync_host_updates := λ _, raise NotImplementedError;
|}.

(** *** class ObjectState *)

(** The broadcast primitive handed to the constructor.  The source calls
    the one function on the saved dictionary ([sync]) and on a boolean
    ([_sync_host_updates]); each use returns a value of the kind it was
    given. *)
Record BcastObject := mkBcastObject {
  bcast_dict : gmap string Value → M Env (gmap string Value);
  bcast_bool : bool → M Env bool;
}.

(** An [ObjectState] instance: the inherited fields, the two fields of its
    own, and the attributes that [setattr] puts on it ([attributes]).  The
    tracked names are taken to differ from the names of the fields and
    methods of the class. *)
Record ObjectState := mkObjectState {
  object_base : State;
  _bcast_object : BcastObject;
  _saved_state : gmap string Value;
  attributes : gmap string Value;
}.

Definition set_saved_state (d : gmap string Value) (o : ObjectState)
  : ObjectState :=
  mkObjectState (object_base o) (_bcast_object o) d (attributes o).

Definition set_object_base (b : State) (o : ObjectState) : ObjectState :=
  mkObjectState b (_bcast_object o) (_saved_state o) (attributes o).

(** [setattr(self, attr, value)] and [getattr(self, attr)]; the latter
    finds nothing ([AttributeError]) when the attribute is not there. *)
Definition setattr (attr : string) (value : Value) (o : ObjectState)
  : ObjectState :=
  mkObjectState (object_base o) (_bcast_object o) (_saved_state o)
                (<[attr := value]> (attributes o)).

Definition getattr (o : ObjectState) (attr : string) : option Value :=
  attributes o !! attr.

(** [ObjectState._set_attrs]: one [setattr] per item of the saved
    dictionary. *)
Definition _set_attrs (o : ObjectState) : ObjectState :=
  map_fold (λ attr value acc, setattr attr value acc) o (_saved_state o).

(** The loop of [ObjectState.save] building [new_state]; [None] when a
    [getattr] fails. *)
Definition snapshot (o : ObjectState) : option (gmap string Value) :=
  map_fold
    (λ attr _ acc,
       new_state ← acc;
       value ← getattr o attr;
       Some (<[attr := value]> new_state))
    (Some ∅) (_saved_state o).

Definition ObjectState_save : M (World ObjectState) unit := λ w,
  match snapshot (self w) with
  | Some new_state => Some (Ok tt, set_self (set_saved_state new_state (self w)) w)
  | None => Some (Raise AttributeError, w)
  end.

Definition ObjectState_restore : M (World ObjectState) unit :=
  modify (λ w, set_self (_set_attrs (self w)) w).

(** [if self._saved_state:] is the dictionary's length being non-zero. *)
Definition ObjectState_sync : M (World ObjectState) unit := λ w,
  if Nat.eqb (size (_saved_state (self w))) 0 then Some (Ok tt, w)
  else
    (received ← call_env (CallBcastDict (_saved_state (self w)))
                  (bcast_dict (_bcast_object (self w)) (_saved_state (self w)));
     modify (λ w', set_self (_set_attrs (set_saved_state received (self w'))) w'))
      w.

Definition ObjectState_sync_host_updates (updated : bool)
  : M (World ObjectState) bool := λ w,
  call_env (CallBcastBool updated)
    (bcast_bool (_bcast_object (self w)) updated) w.

#[global] Instance ObjectState_StateClass : StateClass ObjectState := {|
  get_base := object_base;
  set_base := set_object_base;
  save := ObjectState_save;
  restore := ObjectState_restore;
  sync := ObjectState_sync;
  _sync_host_updates := ObjectState_sync_host_updates;
|}.

(** [ObjectState.__init__]: the keyword arguments become the saved
    dictionary and are applied as attributes; the base fields start as
    [State.__init__] sets them. *)
Definition ObjectState_init (bcast_object : BcastObject)
  (kwargs : gmap string Value) : ObjectState :=
  _set_attrs
    {| object_base := State_init; _bcast_object := bcast_object;
       _saved_state := kwargs; attributes := ∅ |}.

(** *** run_fn *)

Section RunFn.
Context {S : Type} {C : StateClass S} {I : CallbackSem S}.

(** How one pass of the [while True] body ends when nothing escapes it:
    [return func(...)] or falling through to [reset_required = True]. *)
Inductive attempt :=
  | Returned (v : Value)
  | Retry.

(** One pass of the loop body of [wrapper]. *)
Definition run_body (func : Ext S Value) (reset : Ext S unit)
  (fuel : nat) (reset_required : bool) : M (World S) attempt :=
  (if reset_required then call_ext CallReset reset;; on_reset fuel
   else mret tt);;
  sync;;
  try_except
    (v ← call_ext CallFunc func; mret (Returned v))
    (λ e, match e with
          | HorovodInternalError => Some (restore;; mret Retry)
          | HostsUpdatedException => Some (mret Retry)
          | _ => None
          end).

(** The [while True] loop; [fuel] bounds the passes (and, within a pass,
    the callbacks [on_reset] runs). *)
Fixpoint run_loop (func : Ext S Value) (reset : Ext S unit)
  (fuel : nat) (reset_required : bool) : M (World S) Value :=
  match fuel with
  | O => λ _, None
  | Datatypes.S fuel' =>
      a ← run_body func reset fuel' reset_required;
      match a with
      | Returned v => mret v
      | Retry => run_loop func reset fuel' true
      end
  end.

(** The [wrapper] that [run_fn] builds, applied to [state], the identity of
    the object held in [self]. *)
Definition wrapper (func : Ext S Value) (reset : Ext S unit)
  (state : nat) (fuel : nat) : M (World S) Value :=
  notification_manager_init;;
  register_listener state;;
  try_finally (run_loop func reset fuel false) (remove_listener state).

(** [run_fn(func, reset)] returns the wrapper. *)
Definition run_fn (func : Ext S Value) (reset : Ext S unit)
  : nat → nat → M (World S) Value :=
  wrapper func reset.

End RunFn.

(** *** Histories of calls on a state object *)

Section History.
Context {S : Type} {C : StateClass S} {I : CallbackSem S}.

(** The public operations of a [State]. *)
Inductive op :=
  | OpHostsUpdated (timestamp : Z)
  | OpCommit
  | OpSave
  | OpRestore
  | OpSync
  | OpRegisterResetCallbacks (callbacks : list Callback)
  | OpReset.

Definition step (fuel : nat) (o : op) : M (World S) unit :=
  match o with
  | OpHostsUpdated timestamp => on_hosts_updated timestamp
  | OpCommit => commit
  | OpSave => save
  | OpRestore => restore
  | OpSync => sync
  | OpRegisterResetCallbacks callbacks => register_reset_callbacks callbacks
  | OpReset => on_reset fuel
  end.

(** A history: the operations run one after the other on the same object,
    whatever each one returns or raises. *)
Fixpoint run_ops (fuel : nat) (ops : list op) (w : World S)
  : option (World S) :=
  match ops with
  | [] => Some w
  | o :: rest =>
      match step fuel o w with
      | None => None
      | Some (_, w') => run_ops fuel rest w'
      end
  end.

(** The timestamps a history has delivered. *)
Fixpoint delivered (ops : list op) : list Z :=
  match ops with
  | [] => []
  | OpHostsUpdated timestamp :: rest => timestamp :: delivered rest
  | _ :: rest => delivered rest
  end.

(** The largest timestamp the object holds, accepted or still queued. *)
Definition largest_seen (w : World S) : Z :=
  foldr Z.max (_last_updated_timestamp (base w)) (_host_messages (base w)).

(** Following the spec's words: the maximum of the timestamps seen, which
    exists once one has been seen. *)
Definition max_timestamp (timestamps : list Z) : option Z :=
  match timestamps with
  | [] => None
  | timestamp :: rest => Some (foldr Z.max timestamp rest)
  end.

(** *** Several participants in one round of [_update_known_hosts] *)

(** The flag a participant computes locally from its own queue. *)
Definition local_updated (w : World S) : bool :=
  (drain (_host_messages (base w)) (_last_updated_timestamp (base w)) false).2.

(** The class [S] with [_sync_host_updates] read as a logical OR: the caller's
    flag joined with [others], the OR of the flags of the other
    participants. *)
Definition or_sync (others : bool) : StateClass S := {|
  get_base := get_base;
  set_base := set_base;
  save := save;
  restore := restore;
  sync := sync;
  _sync_host_updates := λ updated, mret (updated || others);
|}.

(** Every participant of [ws] runs [_update_known_hosts] in the same round:
    participant [i] gets back the OR of its flag with the flags of all the
    others. *)
Definition update_round (ws : list (World S))
  : list (option (result unit * World S)) :=
  let flags := local_updated <$> ws in
  imap (λ i w,
          @_update_known_hosts S (or_sync (foldr orb false (delete i flags))) w)
       ws.

End History.

End Model.

Arguments mkWorld {U S}.
Arguments self {U S}.
Arguments env {U S}.
Arguments notification_manager {U S}.
Arguments calls {U S}.

(** ** Notions used to state further properties *)

Section Notions.
Context `{U : Universe}.

(** Every tracked name is an attribute of the object: what [save] needs for
    each of its [getattr] calls to succeed. *)
Definition tracked_live (o : ObjectState) : Prop :=
  dom (_saved_state o) ⊆ dom (attributes o).

(** The callbacks may register further callbacks but never remove or
    reorder the registered ones. *)
Definition callbacks_extend {S} {C : StateClass S} {I : CallbackSem S}
  : Prop :=
  ∀ c s e r s' e',
    invoke c (s, e) = Some (r, (s', e')) →
    ∃ more,
      _reset_callbacks (get_base s') = _reset_callbacks (get_base s) ++ more.

Definition is_reset (c : call) : bool :=
  match c with CallReset => true | _ => false end.

Definition is_func (c : call) : bool :=
  match c with CallFunc => true | _ => false end.

Definition is_notifier (c : call) : bool :=
  match c with
  | CallInit | CallRegisterListener _ | CallRemoveListener _ => true
  | _ => false
  end.

(** How many of the recorded calls satisfy [p]. *)
Definition count_calls (p : call → bool) (l : list call) : nat :=
  length (filter (λ c, p c = true) l).

(** A step only appends to the recorded calls, and what it appends holds
    [resets] calls of [reset], [funcs] calls of [func] and no call of the
    notifier. *)
Definition appends {A} (m : M (World ObjectState) A)
    (resets funcs : nat) : Prop :=
  ∀ w r w', m w = Some (r, w') →
    ∃ l, calls w' = calls w ++ l
      ∧ count_calls is_reset l = resets
      ∧ count_calls is_func l = funcs
      ∧ count_calls is_notifier l = 0%nat.

End Notions.

(** ** A concrete universe to run the model in *)

Module Demo.
Section Demo.

(** Attribute values are integers, callbacks are known by name, and the
    environment counts the calls of the user computation. *)
Definition demo_universe : Universe :=
  {| Value := Z; Callback := string; Env := nat |}.
#[local] Existing Instance demo_universe.

(** A broadcast in which this worker is the source. *)
Definition bcast_self : BcastObject :=
  {| bcast_dict := λ d, mret d; bcast_bool := λ b, mret b |}.

(** A broadcast whose source holds epoch 4 and has seen a host update. *)
Definition bcast_other : BcastObject :=
  {| bcast_dict := λ _, mret {[ "epoch"%string := 4 ]};
     bcast_bool := λ _, mret true |}.

(** The callback named boom fails; lr rescales an attribute; the others do
    nothing. *)
Definition demo_invoke : CallbackSem ObjectState := λ c x,
  if String.eqb c "boom" then Some (Raise (OtherError "boom"), x)
  else if String.eqb c "lr" then Some (Ok tt, (setattr "lr" 8 x.1, x.2))
  else Some (Ok tt, x).
#[local] Existing Instance demo_invoke.

(** A computation that meets a worker failure on its first call, a host
    update on its second, and returns on its third. *)
Definition demo_func : Ext ObjectState Value := λ x,
  match x.2 with
  | O => Some (Raise HorovodInternalError, (setattr "epoch" 6 x.1, 1%nat))
  | 1%nat => Some (Raise HostsUpdatedException, (x.1, 2%nat))
  | _ => Some (Ok 42, (x.1, Datatypes.S x.2))
  end.

(** A computation that fails with an exception the loop does not know. *)
Definition demo_fatal : Ext ObjectState Value := λ x,
  Some (Raise (OtherError "fatal"), x).

Definition demo_reset : Ext ObjectState unit := mret tt.

Definition demo_world (o : ObjectState) : World ObjectState :=
  mkWorld o O (mkManager false ∅) [].

Definition demo_state : ObjectState :=
  ObjectState_init bcast_self {[ "epoch"%string := 5; "lr"%string := 1 ]}.

Definition demo_empty : ObjectState := ObjectState_init bcast_self ∅.

(** The demo object after the notifier delivered timestamp 100. *)
Definition demo_pending : World ObjectState :=
  after (on_hosts_updated 100) (demo_world demo_state).

(** A second participant, which has seen no host update. *)
Definition demo_quiet : World ObjectState := demo_world demo_state.

(** The demo object built on the broadcast of another source. *)
Definition demo_follower : World ObjectState :=
  demo_world
    (ObjectState_init bcast_other {[ "epoch"%string := 5; "lr"%string := 1 ]}).

End Demo.
End Demo.

(** Further concrete pieces: a broadcast that fails and callbacks that
    register callbacks. *)
Module Demo2.
Section Demo2.
#[local] Existing Instance Demo.demo_universe.

(** A broadcast whose transport is down. *)
Definition bcast_broken : BcastObject :=
  {| bcast_dict := λ _, raise (OtherError "transport");
     bcast_bool := λ _, raise (OtherError "transport") |}.

(** The callback named grow registers the callback named late; every other
    callback does nothing. *)
Definition growing_invoke : CallbackSem ObjectState := λ c x,
  if String.eqb c "grow" then
    Some (Ok tt,
          (set_object_base
             {| _host_messages := _host_messages (object_base x.1);
                _last_updated_timestamp :=
                  _last_updated_timestamp (object_base x.1);
                _reset_callbacks :=
                  _reset_callbacks (object_base x.1) ++ ["late"%string] |}
             x.1, x.2))
  else Some (Ok tt, x).

(** The demo object with its saved dictionary handed to a broken broadcast. *)
Definition demo_cut_off : World ObjectState :=
  Demo.demo_world
    (ObjectState_init bcast_broken {[ "epoch"%string := 5 ]}).

(** The demo object after its epoch attribute was deleted. *)
Definition demo_deleted : World ObjectState :=
  Demo.demo_world
    (mkObjectState State_init Demo.bcast_self
       {[ "epoch"%string := 5; "lr"%string := 1 ]} {[ "lr"%string := 1 ]}).

(** The demo object with three callbacks registered, grow among them. *)
Definition demo_registered : World ObjectState :=
  after (register_reset_callbacks ["a"; "grow"; "b"]%string)
    (Demo.demo_world Demo.demo_state).

(** The demo object in a process whose computation is at its third call. *)
Definition demo_third : World ObjectState :=
  mkWorld Demo.demo_state 2%nat (mkManager false ∅) [].

End Demo2.
End Demo2.

(** A universe with objects that change in place: an attribute is bound
    to the address of a list, and the lists live in the environment. *)
Module Demo3.
Section Demo3.

Definition heap_universe : Universe :=
  {| Value := nat; Callback := string; Env := gmap nat (list Z) |}.
#[local] Existing Instance heap_universe.

(** A broadcast in which this worker is the source. *)
Definition bcast_refs : BcastObject :=
  {| bcast_dict := λ d, mret d; bcast_bool := λ b, mret b |}.

(** [ObjectState(bcast_object, hist=[1])]: hist is bound to address 0, and
    the list [1] is at that address. *)
Definition heap_world : World ObjectState :=
  mkWorld (ObjectState_init bcast_refs {[ "hist"%string := 0%nat ]})
    {[ 0%nat := [1] ]} (mkManager false ∅) [].

(** [state.hist.append(2)]: the list at the address bound to hist grows;
    no attribute is rebound. *)
Definition append_hist (w : World ObjectState) : World ObjectState :=
  mkWorld (self w)
    (match getattr (self w) "hist" with
     | Some a => alter (λ l, l ++ [2]) a (env w)
     | None => env w
     end)
    (notification_manager w) (calls w).

End Demo3.
End Demo3.

(** ** Properties *)

(** Unfolding of the monad operations on an applied computation. *)
Ltac unfold_M :=
  unfold mbind, M_bind, mret, M_ret, raise, modify, try_except,
    try_finally, call_ext, call_env in *.

Section ObjectStateTheory.
Context `{U : Universe}.
Implicit Types (o : ObjectState) (w : World ObjectState).
Implicit Types (d : gmap string Value) (attr : string).

(** *** [_set_attrs] and [snapshot] as dictionary operations *)

Lemma _set_attrs_spec o :
  _set_attrs o =
  mkObjectState (object_base o) (_bcast_object o) (_saved_state o)
                (_saved_state o ∪ attributes o).
Proof.
  unfold _set_attrs.
  generalize (_saved_state o) at 1 3 as m.
  intros m.
  apply (map_fold_weak_ind
           (λ r m, r = mkObjectState (object_base o) (_bcast_object o)
                         (_saved_state o) (m ∪ attributes o))).
  - rewrite (left_id_L ∅ (∪)). by destruct o.
  - intros attr value m' r _ ->. unfold setattr; simpl.
    by rewrite insert_union_l.
Qed.

Lemma _set_attrs_saved o : _saved_state (_set_attrs o) = _saved_state o.
Proof. by rewrite _set_attrs_spec. Qed.

Lemma _set_attrs_base o : object_base (_set_attrs o) = object_base o.
Proof. by rewrite _set_attrs_spec. Qed.

Lemma _set_attrs_tracked o attr value :
  _saved_state o !! attr = Some value →
  attributes (_set_attrs o) !! attr = Some value.
Proof.
  intros H. rewrite _set_attrs_spec; simpl. by apply lookup_union_Some_l.
Qed.

Lemma _set_attrs_untracked o attr :
  _saved_state o !! attr = None →
  attributes (_set_attrs o) !! attr = attributes o !! attr.
Proof.
  intros H. rewrite _set_attrs_spec; simpl. by apply lookup_union_r.
Qed.

(** What the loop of [save] computes: on success every tracked name is a
    live attribute and the new dictionary binds exactly the tracked names
    to their live values; on failure some tracked name is not live. *)
Lemma snapshot_spec o :
  match snapshot o with
  | Some new_state =>
      ∀ attr,
        new_state !! attr = (_saved_state o !! attr ≫= λ _, attributes o !! attr)
        ∧ (is_Some (_saved_state o !! attr) → is_Some (attributes o !! attr))
  | None =>
      ∃ attr, is_Some (_saved_state o !! attr) ∧ attributes o !! attr = None
  end.
Proof.
  unfold snapshot.
  apply (map_fold_weak_ind
    (λ (r : option (gmap string Value)) (m : gmap string Value),
       match r with
       | Some new_state =>
           ∀ attr,
             new_state !! attr = (m !! attr ≫= λ _, attributes o !! attr)
             ∧ (is_Some (m !! attr) → is_Some (attributes o !! attr))
       | None => ∃ attr, is_Some (m !! attr) ∧ attributes o !! attr = None
       end)).
  - intros attr. rewrite !lookup_empty. split; [done|]. by intros [? ?].
  - intros attr value m r Hfresh IH. destruct r as [new_state|]; simpl.
    + unfold getattr. destruct (attributes o !! attr) as [v|] eqn:Hlive; simpl.
      * intros attr'. destruct (decide (attr = attr')) as [<-|Hne].
        -- rewrite !lookup_insert_eq. simpl. eauto.
        -- rewrite !lookup_insert_ne by done. apply IH.
      * exists attr. by rewrite lookup_insert_eq.
    + destruct IH as (attr' & [v Hv] & Hnone). exists attr'. split; [|done].
      destruct (decide (attr = attr')) as [<-|Hne]; [congruence|].
      by rewrite lookup_insert_ne.
Qed.

Lemma snapshot_lookup o new_state attr :
  snapshot o = Some new_state →
  new_state !! attr = _saved_state o !! attr ≫= λ _, attributes o !! attr.
Proof.
  intros H. pose proof (snapshot_spec o) as Hs. rewrite H in Hs. apply Hs.
Qed.

Lemma snapshot_tracked o new_state attr :
  snapshot o = Some new_state →
  is_Some (_saved_state o !! attr) →
  new_state !! attr = attributes o !! attr ∧ is_Some (attributes o !! attr).
Proof.
  intros H [v Hv]. pose proof (snapshot_spec o) as Hs. rewrite H in Hs.
  destruct (Hs attr) as [Hl Hlive]. rewrite Hl, Hv. split; [done|]. eauto.
Qed.

Lemma snapshot_dom o new_state :
  snapshot o = Some new_state → dom new_state = dom (_saved_state o).
Proof.
  intros H. apply set_eq. intros attr. rewrite !elem_of_dom. split.
  - intros [v Hv]. rewrite (snapshot_lookup _ _ _ H) in Hv.
    destruct (_saved_state o !! attr); [eauto|done].
  - intros Htracked. destruct (snapshot_tracked _ _ _ H Htracked) as [-> ?].
    done.
Qed.

(** [save] can only fail on a tracked name that is no longer an attribute. *)
Lemma snapshot_is_Some o :
  dom (_saved_state o) ⊆ dom (attributes o) → is_Some (snapshot o).
Proof.
  intros Hsub. pose proof (snapshot_spec o) as Hs.
  destruct (snapshot o) as [new_state|]; [eauto|].
  destruct Hs as (attr & Htracked & Hnone).
  apply elem_of_dom in Htracked. apply Hsub in Htracked.
  apply elem_of_dom in Htracked as [v Hv]. congruence.
Qed.

(** What is saved is what is live: re-applying a fresh snapshot changes no
    attribute. *)
Lemma snapshot_union o new_state :
  snapshot o = Some new_state → new_state ∪ attributes o = attributes o.
Proof.
  intros H. apply map_eq. intros attr.
  destruct (new_state !! attr) as [v|] eqn:Hnew.
  - rewrite (lookup_union_Some_l _ _ _ _ Hnew).
    rewrite (snapshot_lookup _ _ _ H) in Hnew.
    destruct (_saved_state o !! attr); simpl in Hnew; [done|discriminate].
  - by rewrite lookup_union_r.
Qed.

(** *** The methods of [ObjectState] *)

Lemma save_Ok w w1 :
  save w = Some (Ok tt, w1) →
  ∃ new_state,
    snapshot (self w) = Some new_state
    ∧ w1 = set_self (set_saved_state new_state (self w)) w.
Proof.
  simpl. unfold ObjectState_save.
  destruct (snapshot (self w)) as [new_state|]; [|discriminate].
  intros [= <-]. eauto.
Qed.

Lemma save_outcome w r w1 :
  save w = Some (r, w1) →
  (r = Ok tt ∧ ∃ new_state, snapshot (self w) = Some new_state
      ∧ w1 = set_self (set_saved_state new_state (self w)) w)
  ∨ (r = Raise AttributeError ∧ w1 = w).
Proof.
  simpl. unfold ObjectState_save.
  destruct (snapshot (self w)) as [new_state|]; intros [= <- <-]; eauto.
Qed.

(** [save] succeeds as long as no tracked attribute was deleted. *)
Lemma save_succeeds w :
  dom (_saved_state (self w)) ⊆ dom (attributes (self w)) →
  ∃ w1, save w = Some (Ok tt, w1).
Proof.
  intros H. apply snapshot_is_Some in H as [new_state Hs].
  simpl. unfold ObjectState_save. rewrite Hs. eauto.
Qed.

Lemma restore_eq w :
  restore w = Some (Ok tt, set_self (_set_attrs (self w)) w).
Proof. reflexivity. Qed.

(** Whatever happened to the attributes, [restore] binds every saved name
    to its saved value. *)
Lemma restore_reapplies w :
  ∃ w', restore w = Some (Ok tt, w')
    ∧ _saved_state (self w') = _saved_state (self w)
    ∧ (∀ attr value, _saved_state (self w) !! attr = Some value →
         attributes (self w') !! attr = Some value)
    ∧ (∀ attr, _saved_state (self w) !! attr = None →
         attributes (self w') !! attr = attributes (self w) !! attr).
Proof.
  eexists. split; [apply restore_eq|]. simpl.
  split; [apply _set_attrs_saved|].
  split; [apply _set_attrs_tracked|apply _set_attrs_untracked].
Qed.

(** The constructor leaves every tracked name live. *)
Lemma ObjectState_init_spec bcast_object kwargs :
  ObjectState_init bcast_object kwargs =
  mkObjectState State_init bcast_object kwargs kwargs.
Proof.
  unfold ObjectState_init. rewrite _set_attrs_spec; simpl.
  by rewrite (right_id_L ∅ (∪)).
Qed.

(** C4, with what [sync()] and references change: [save()] followed at
    once by [restore()] leaves every attribute as it was; and after a
    successful [save()], however the attributes are rebound, deleted or
    added to afterwards, a [restore()] that finds the saved dictionary that
    [save()] left (no [save()] and no [sync()] in between) binds every
    tracked attribute to the value it was bound to when [save()] ran.
    [restore()] writes bindings only: the environment, where the objects
    that are changed in place live, is left as it is. *)
Theorem save_restore w w1 :
  ObjectState_save w = Some (Ok tt, w1) →
  (∃ w', ObjectState_restore w1 = Some (Ok tt, w')
      ∧ attributes (self w') = attributes (self w)
      ∧ env w' = env w)
  ∧ (∀ w2, _saved_state (self w2) = _saved_state (self w1) →
      ∃ w3, ObjectState_restore w2 = Some (Ok tt, w3)
        ∧ env w3 = env w2
        ∧ ∀ attr, attr ∈ dom (_saved_state (self w)) →
            is_Some (attributes (self w) !! attr)
            ∧ attributes (self w3) !! attr = attributes (self w) !! attr).
Proof.
  intros Hsave. apply save_Ok in Hsave as (new_state & Hsnap & ->). split.
  - eexists. split; [apply restore_eq|]. simpl. split; [|done].
    rewrite _set_attrs_spec; simpl. by apply snapshot_union.
  - intros w2 Hsaved. simpl in Hsaved.
    eexists. split; [apply restore_eq|]. simpl. split; [done|].
    intros attr Htracked. apply elem_of_dom in Htracked.
    destruct (snapshot_tracked _ _ attr Hsnap Htracked) as [Hnew Hlive].
    split; [done|]. destruct Hlive as [v Hv]. rewrite Hv.
    apply _set_attrs_tracked. rewrite Hsaved. congruence.
Qed.

(** C8: [sync()] on an object whose saved dictionary is empty returns at
    once and changes nothing: no call is recorded (so no broadcast), and the
    saved dictionary, the attributes and the environment are what they
    were. *)
Theorem sync_empty w :
  _saved_state (self w) = ∅ → ObjectState_sync w = Some (Ok tt, w).
Proof.
  intros Hempty. unfold ObjectState_sync.
  by rewrite Hempty, map_size_empty.
Qed.

Lemma sync_nonempty w :
  _saved_state (self w) ≠ ∅ →
  sync w =
  (received ← call_env (CallBcastDict (_saved_state (self w)))
                (bcast_dict (_bcast_object (self w)) (_saved_state (self w)));
   modify (λ w', set_self (_set_attrs (set_saved_state received (self w'))) w'))
    w.
Proof.
  intros Hne. simpl. unfold ObjectState_sync.
  destruct (Nat.eqb_spec (size (_saved_state (self w))) 0) as [Hz|_]; [|done].
  by apply map_size_empty_iff in Hz.
Qed.

(** C9: when the saved dictionary is not empty and the broadcast returns
    [received], [sync()] makes exactly one broadcast call and puts
    [received] in the place of the saved dictionary; a [restore()] that
    finds this saved dictionary (no [save()] since) binds the attributes to
    the received values, whatever the last [save()] had captured. *)
Theorem sync_replaces_snapshot w received e' :
  _saved_state (self w) ≠ ∅ →
  bcast_dict (_bcast_object (self w)) (_saved_state (self w)) (env w)
    = Some (Ok received, e') →
  ∃ w1, ObjectState_sync w = Some (Ok tt, w1)
    ∧ _saved_state (self w1) = received
    ∧ calls w1 = calls w ++ [CallBcastDict (_saved_state (self w))]
    ∧ (∀ attr value, received !! attr = Some value →
         attributes (self w1) !! attr = Some value)
    ∧ (∀ w2, _saved_state (self w2) = _saved_state (self w1) →
        ∃ w3, ObjectState_restore w2 = Some (Ok tt, w3)
          ∧ ∀ attr value, received !! attr = Some value →
              attributes (self w3) !! attr = Some value).
Proof.
  intros Hne Hbcast. change (ObjectState_sync w) with (sync w).
  rewrite (sync_nonempty _ Hne). unfold_M.
  rewrite Hbcast. eexists. split; [reflexivity|]. simpl.
  rewrite _set_attrs_saved. simpl. split; [done|]. split; [done|].
  split.
  - intros attr value Hr. by apply _set_attrs_tracked.
  - intros w2 Hsaved. eexists. split; [reflexivity|]. simpl.
    intros attr value Hr. apply _set_attrs_tracked. by rewrite Hsaved.
Qed.


End ObjectStateTheory.

Section StateTheory.
Context `{U : Universe} {S : Type} {C : StateClass S} {I : CallbackSem S}.
Implicit Types (w : World S) (q : list Z) (last t : Z) (cbs : list Callback).

(** *** The drain loop *)

Lemma foldr_max_le q last : last ≤ foldr Z.max last q.
Proof. induction q as [|t q IH]; simpl; lia. Qed.

Lemma foldr_max_max q a b :
  foldr Z.max (Z.max a b) q = Z.max (foldr Z.max a q) b.
Proof. induction q as [|t q IH]; simpl; [done|]. rewrite IH. lia. Qed.

(** The field ends as the largest of its old value and the queued
    timestamps, in whatever order they were queued. *)
Lemma drain_last q last updated :
  (drain q last updated).1 = foldr Z.max last q.
Proof.
  revert last updated. induction q as [|t q IH]; intros last updated; simpl.
  - done.
  - destruct (Z.ltb_spec last t) as [Hlt|Hge]; rewrite IH.
    + replace t with (Z.max last t) at 1 by lia.
      rewrite foldr_max_max. lia.
    + pose proof (foldr_max_le q last). lia.
Qed.

Lemma foldr_max_snoc q last t :
  foldr Z.max last (q ++ [t]) = Z.max t (foldr Z.max last q).
Proof.
  rewrite foldr_app. simpl. rewrite (Z.max_comm t), foldr_max_max.
  apply Z.max_comm.
Qed.

(** The local flag is set exactly when the field went up. *)
Lemma drain_updated q last updated :
  (drain q last updated).2 = updated || bool_decide (last < foldr Z.max last q).
Proof.
  revert last updated. induction q as [|t q IH]; intros last updated; simpl.
  - rewrite bool_decide_eq_false_2 by lia. by rewrite orb_false_r.
  - pose proof (foldr_max_le q last). pose proof (foldr_max_le q t).
    destruct (Z.ltb_spec last t) as [Hlt|Hge]; rewrite IH.
    + rewrite (bool_decide_eq_true_2 (last < _)) by lia.
      by rewrite orb_true_r.
    + f_equal. apply bool_decide_ext. lia.
Qed.

Lemma drain_host_messages_eq w :
  drain_host_messages w =
  Some (Ok (local_updated w),
        set_base_w
          {| _host_messages := [];
             _last_updated_timestamp :=
               foldr Z.max (_last_updated_timestamp (base w))
                     (_host_messages (base w));
             _reset_callbacks := _reset_callbacks (base w) |} w).
Proof.
  unfold drain_host_messages, local_updated. by rewrite drain_last.
Qed.

(** *** One participant, then a round of participants *)

Lemma _update_known_hosts_outcome w flag w1 g w2 :
  drain_host_messages w = Some (Ok flag, w1) →
  _sync_host_updates flag w1 = Some (Ok g, w2) →
  _update_known_hosts w =
  Some (if g then Raise HostsUpdatedException else Ok tt, w2).
Proof.
  intros Hdrain Hsync. unfold _update_known_hosts. unfold_M.
  rewrite Hdrain, Hsync. by destruct g.
Qed.

Lemma foldr_orb_delete (flags : list bool) i b :
  flags !! i = Some b →
  b || foldr orb false (delete i flags) = foldr orb false flags.
Proof.
  revert i. induction flags as [|b' flags IH]; intros [|i] Hi; simpl in *;
    try discriminate.
  - by injection Hi as ->.
  - rewrite <- (IH _ Hi). by destruct b, b'.
Qed.

(** In a round every participant gets the same answer: the OR of all the
    local flags. *)
Lemma update_round_outcome (ws : list (World S)) out :
  out ∈ update_round ws →
  ∃ w w1,
    w ∈ ws
    ∧ @drain_host_messages _ _ C w = Some (Ok (local_updated w), w1)
    ∧ out = Some (if foldr orb false (local_updated <$> ws)
                  then Raise HostsUpdatedException else Ok tt, w1).
Proof.
  unfold update_round. intros Hin.
  apply elem_of_lookup_imap in Hin as (i & w & -> & Hw).
  eexists w, _. split; [by eapply list_elem_of_lookup_2|].
  split; [apply drain_host_messages_eq|].
  unfold _update_known_hosts. unfold_M.
  change (@drain_host_messages _ _ (or_sync _) w)
    with (@drain_host_messages _ _ C w).
  rewrite drain_host_messages_eq. simpl.
  rewrite (foldr_orb_delete (local_updated <$> ws) i (local_updated w)).
  - by destruct (foldr orb false _).
  - by rewrite list_lookup_fmap, Hw.
Qed.

(** C2: [_update_known_hosts], and with it [commit()] once [save()] has
    returned, raises the membership-changed signal exactly when the value
    that [_sync_host_updates] returns is true, whatever the local flag
    passed to it; and with [_sync_host_updates] read as the OR over the
    participants, in a round either every participant raises the signal or
    every participant returns normally. *)
Theorem membership_signal_is_global w0 w flag w1 g w2 (ws : list (World S)) :
  save w0 = Some (Ok tt, w) →
  drain_host_messages w = Some (Ok flag, w1) →
  _sync_host_updates flag w1 = Some (Ok g, w2) →
  (_update_known_hosts w =
     Some (if g then Raise HostsUpdatedException else Ok tt, w2)
   ∧ commit w0 = Some (if g then Raise HostsUpdatedException else Ok tt, w2)
   ∧ (commit w0 = Some (Raise HostsUpdatedException, w2) ↔ g = true))
  ∧ ((foldr orb false (local_updated <$> ws) = true
      ∧ ∀ out, out ∈ update_round ws →
          ∃ w', out = Some (Raise HostsUpdatedException, w'))
     ∨ (foldr orb false (local_updated <$> ws) = false
        ∧ ∀ out, out ∈ update_round ws → ∃ w', out = Some (Ok tt, w'))).
Proof.
  intros Hsave Hdrain Hsync.
  pose proof (_update_known_hosts_outcome _ _ _ _ _ Hdrain Hsync) as Hupd.
  assert (commit w0 =
          Some (if g then Raise HostsUpdatedException else Ok tt, w2)) as Hc.
  { unfold commit. unfold_M. by rewrite Hsave. }
  split.
  - split; [done|]. split; [done|]. rewrite Hc.
    destruct g; split; intros; congruence.
  - destruct (foldr orb false (local_updated <$> ws)) eqn:Hor; [left|right];
      (split; [done|]); intros out Hout;
      apply update_round_outcome in Hout as (w' & w1' & _ & _ & ->);
      rewrite Hor; eauto.
Qed.

(** *** Sequencing *)

Lemma bind_Ok {W A B} (m : M W A) (f : A → M W B) (w w1 : W) a :
  m w = Some (Ok a, w1) → (m ≫= f) w = f a w1.
Proof. intros H. unfold_M. by rewrite H. Qed.

Lemma bind_Raise {W A B} (m : M W A) (f : A → M W B) (w w1 : W) e :
  m w = Some (Raise e, w1) → (m ≫= f) w = Some (Raise e, w1).
Proof. intros H. unfold_M. by rewrite H. Qed.

Lemma bind_Some {W A B} (m : M W A) (f : A → M W B) (w w2 : W) r :
  (m ≫= f) w = Some (r, w2) →
  (∃ a (w1 : W), m w = Some (Ok a, w1) ∧ f a w1 = Some (r, w2))
  ∨ (∃ e, m w = Some (Raise e, w2) ∧ r = Raise e).
Proof.
  unfold_M. destruct (m w) as [[[a|e] w1]|]; [eauto| |done].
  intros [= <- <-]. eauto.
Qed.

Lemma bind_assoc {W A B D} (m : M W A) (f : A → M W B) (g : B → M W D)
    (w : W) :
  ((m ≫= f) ≫= g) w = (m ≫= λ a, f a ≫= g) w.
Proof. unfold_M. by destruct (m w) as [[[a|e] w1]|]. Qed.

Lemma try_except_Ok {W A} (body : M W A) handler (w w1 : W) a :
  body w = Some (Ok a, w1) → try_except body handler w = Some (Ok a, w1).
Proof. intros H. unfold try_except. by rewrite H. Qed.

Lemma try_except_Raise {W A} (body : M W A) handler (w w1 : W) e :
  body w = Some (Raise e, w1) →
  try_except body handler w
  = match handler e with Some h => h w1 | None => Some (Raise e, w1) end.
Proof. intros H. unfold try_except. by rewrite H. Qed.

(** *** Reset callbacks *)

Lemma base_set_base_w `{!StateLaws S} b w : base (set_base_w b w) = b.
Proof. unfold base, set_base_w. simpl. apply get_set_base. Qed.

Lemma register_reset_callbacks_spec `{!StateLaws S} cbs w :
  ∃ w1, register_reset_callbacks cbs w = Some (Ok tt, w1)
    ∧ _reset_callbacks (base w1) = _reset_callbacks (base w) ++ cbs
    ∧ _host_messages (base w1) = _host_messages (base w)
    ∧ _last_updated_timestamp (base w1) = _last_updated_timestamp (base w)
    ∧ calls w1 = calls w.
Proof.
  eexists. split; [reflexivity|]. by rewrite base_set_base_w.
Qed.

(** When no callback touches the list, the walk by position is the walk
    over the list as it stood when [on_reset] was entered. *)
Lemma on_reset_from_in_order :
  callbacks_keep _reset_callbacks →
  ∀ fuel i w,
    (length (_reset_callbacks (base w)) ≤ i + fuel)%nat →
    on_reset_from fuel i w
    = invoke_in_order (drop i (_reset_callbacks (base w))) w.
Proof.
  intros Hkeep fuel. induction fuel as [|fuel IH]; intros i w Hlen;
    simpl; destruct (_reset_callbacks (base w) !! i) as [c|] eqn:Hi.
  - apply lookup_lt_Some in Hi. lia.
  - apply lookup_ge_None in Hi. by rewrite drop_ge.
  - rewrite (drop_S _ _ _ Hi). simpl. unfold_M.
    destruct (invoke c (self w, env w)) as [[[[]|e] [s' e']]|] eqn:Hc;
      [|done|done].
    rewrite IH; unfold base in *; simpl;
      rewrite (Hkeep _ _ _ _ _ _ Hc); [done|lia].
  - apply lookup_ge_None in Hi. by rewrite drop_ge.
Qed.

(** The calls an in-order walk records: a prefix of the list, all of it
    unless a callback raised, and then up to the one that raised. *)
Lemma invoke_in_order_calls cbs w r w' :
  invoke_in_order cbs w = Some (r, w') →
  ∃ n, calls w' = calls w ++ (CallCallback <$> take n cbs)
    ∧ match r with
      | Ok _ => n = length cbs
      | Raise e =>
          (0 < n ≤ length cbs)%nat
          ∧ ∃ c x x', cbs !! (n - 1)%nat = Some c
              ∧ invoke c x = Some (Raise e, x')
      end.
Proof.
  revert w. induction cbs as [|c cbs IH]; intros w; simpl.
  - intros [= <- <-]. exists 0%nat. simpl. by rewrite app_nil_r.
  - intros H. apply bind_Some in H as [([] & w1 & Hc & Hrest)|(e & Hc & ->)].
    + apply IH in Hrest as (n & Hcalls & Hr). exists (Datatypes.S n).
      assert (calls w1 = calls w ++ [CallCallback c]) as Hw1.
      { revert Hc. unfold_M.
        destruct (invoke c (self w, env w)) as [[? [? ?]]|]; [|done].
        by intros [= _ <-]. }
      split.
      * rewrite Hcalls, Hw1. simpl. by rewrite <- (assoc_L (++)).
      * destruct r as [[]|e]; [simpl; lia|].
        destruct Hr as (Hn & c' & x & x' & Hl & Hi).
        split; [simpl; lia|]. exists c', x, x'. split; [|done].
        destruct n as [|n]; [lia|]. simpl in *.
        by rewrite Nat.sub_0_r in Hl.
    + exists 1%nat. revert Hc. unfold_M.
      destruct (invoke c (self w, env w)) as [[? [? ?]]|] eqn:Hi; [|done].
      intros [= -> <-]. simpl.
      split; [done|]. split; [lia|]. eauto.
Qed.

(** C7: [register_reset_callbacks] appends what it is given, in order and
    with duplicates kept; and provided no callback changes the list of
    callbacks during the walk, [on_reset()] invokes the registered
    callbacks in registration order, once per registration, and the first
    callback that raises ends the walk with its exception. *)
Theorem reset_callbacks_in_registration_order `{!StateLaws S}
    w cbs1 cbs2 fuel :
  callbacks_keep _reset_callbacks →
  (length (_reset_callbacks (base w) ++ cbs1 ++ cbs2) ≤ fuel)%nat →
  ∃ w1,
    (register_reset_callbacks cbs1;; register_reset_callbacks cbs2) w
      = Some (Ok tt, w1)
    ∧ _reset_callbacks (base w1) = _reset_callbacks (base w) ++ cbs1 ++ cbs2
    ∧ calls w1 = calls w
    ∧ on_reset fuel w1 = invoke_in_order (_reset_callbacks (base w1)) w1
    ∧ ∀ r w2, on_reset fuel w1 = Some (r, w2) →
        ∃ n,
          calls w2
            = calls w1 ++ (CallCallback <$> take n (_reset_callbacks (base w1)))
          ∧ match r with
            | Ok _ => n = length (_reset_callbacks (base w1))
            | Raise e =>
                (0 < n ≤ length (_reset_callbacks (base w1)))%nat
                ∧ ∃ c x x',
                    _reset_callbacks (base w1) !! (n - 1)%nat = Some c
                    ∧ invoke c x = Some (Raise e, x')
            end.
Proof.
  intros Hkeep Hfuel.
  destruct (register_reset_callbacks_spec cbs1 w)
    as (wa & Ha & Hla & _ & _ & Hca).
  destruct (register_reset_callbacks_spec cbs2 wa)
    as (w1 & Hb & Hlb & _ & _ & Hcb).
  exists w1. rewrite (bind_Ok _ _ _ _ _ Ha).
  split; [done|].
  assert (_reset_callbacks (base w1)
          = _reset_callbacks (base w) ++ cbs1 ++ cbs2) as Hl.
  { by rewrite Hlb, Hla, <- (assoc_L (++)). }
  split; [done|]. split; [congruence|].
  assert (on_reset fuel w1 = invoke_in_order (_reset_callbacks (base w1)) w1)
    as Heq.
  { unfold on_reset. rewrite (on_reset_from_in_order Hkeep).
    - by rewrite drop_0.
    - rewrite Hl. lia. }
  split; [done|]. intros r w2 Hrun. rewrite Heq in Hrun.
  by apply invoke_in_order_calls in Hrun.
Qed.

(** *** The run loop *)

Implicit Types (func : Ext S Value) (reset : Ext S unit).
Implicit Types (reset_required : bool).

(** A pass in which [func] returns ends the loop with that value. *)
Lemma run_loop_on_return func reset fuel reset_required w w1 v w2 :
  ((if reset_required then call_ext CallReset reset;; on_reset fuel
    else mret tt);; sync) w = Some (Ok tt, w1) →
  call_ext CallFunc func w1 = Some (Ok v, w2) →
  run_loop func reset (Datatypes.S fuel) reset_required w = Some (Ok v, w2).
Proof.
  intros Hpre Hfunc. cbn [run_loop]. unfold run_body.
  apply bind_Some in Hpre as [([] & wa & Ha & Hsync)|(e' & _ & [=])].
  rewrite bind_assoc, (bind_Ok _ _ _ _ _ Ha).
  rewrite bind_assoc, (bind_Ok _ _ _ _ _ Hsync).
  pose proof (bind_Ok _ (λ v, mret (Returned v)) _ _ _ Hfunc) as Hbody.
  by rewrite (bind_Ok _ _ _ _ _ (try_except_Ok _ _ _ _ _ Hbody)).
Qed.

(** C1: in a pass of the loop that reached [func] (the reset steps, when
    due, and [sync()] having returned), a [HorovodInternalError] from [func]
    is followed by [state.restore()] and then by the next pass with
    [reset_required] true; a [HostsUpdatedException] is followed by the next
    pass with [reset_required] true, from the very store [func] left (no
    [restore()]); any other exception leaves the loop as it is, with the
    store [func] left. *)
Theorem run_loop_on_failure func reset fuel reset_required w w1 e w2 :
  ((if reset_required then call_ext CallReset reset;; on_reset fuel
    else mret tt);; sync) w = Some (Ok tt, w1) →
  call_ext CallFunc func w1 = Some (Raise e, w2) →
  run_loop func reset (Datatypes.S fuel) reset_required w =
  match e with
  | HorovodInternalError => (restore;; run_loop func reset fuel true) w2
  | HostsUpdatedException => run_loop func reset fuel true w2
  | _ => Some (Raise e, w2)
  end.
Proof.
  intros Hpre Hfunc. cbn [run_loop]. unfold run_body.
  apply bind_Some in Hpre as [([] & wa & Ha & Hsync)|(e' & _ & [=])].
  rewrite bind_assoc, (bind_Ok _ _ _ _ _ Ha).
  rewrite bind_assoc, (bind_Ok _ _ _ _ _ Hsync).
  pose proof (bind_Raise _ (λ v, mret (Returned v)) _ _ _ Hfunc) as Hbody.
  destruct e.
  - (* HorovodInternalError: the handler runs restore() *)
    unfold mbind at 1, M_bind at 1.
    rewrite (try_except_Raise _ _ _ _ _ Hbody).
    unfold_M. by destruct (restore w2) as [[[[]|e] w3]|].
  - (* HostsUpdatedException: the handler is [pass] *)
    unfold mbind at 1, M_bind at 1.
    by rewrite (try_except_Raise _ _ _ _ _ Hbody).
  - unfold mbind at 1, M_bind at 1.
    by rewrite (try_except_Raise _ _ _ _ _ Hbody).
  - unfold mbind at 1, M_bind at 1.
    by rewrite (try_except_Raise _ _ _ _ _ Hbody).
  - unfold mbind at 1, M_bind at 1.
    by rewrite (try_except_Raise _ _ _ _ _ Hbody).
Qed.

(** C5: whenever the wrapped function comes back, with the value of [func]
    or with an exception that escaped the loop, the state was registered
    for the time of the loop, the last call made is
    [remove_listener(state)], and the state is not among the listeners. *)
Theorem run_fn_deregisters func reset state fuel w r w' :
  run_fn func reset state fuel w = Some (r, w') →
  (state ∉ listeners (notification_manager w'))
  ∧ last (calls w') = Some (CallRemoveListener state)
  ∧ ∃ w1 w2,
      (notification_manager_init;; register_listener state) w
        = Some (Ok tt, w1)
      ∧ state ∈ listeners (notification_manager w1)
      ∧ run_loop func reset fuel false w1 = Some (r, w2)
      ∧ remove_listener state w2 = Some (Ok tt, w').
Proof.
  unfold run_fn, wrapper. intros H.
  apply bind_Some in H as [([] & wa & Ha & H)|(e & [=] & _)].
  apply bind_Some in H as [([] & w1 & Hb & H)|(e & [=] & _)].
  unfold try_finally in H.
  destruct (run_loop func reset fuel false w1) as [[r' w2]|] eqn:Hloop;
    last done.
  injection H as Hr Hw. subst r' w'. simpl.
  split.
  { intros [_ Hn]%elem_of_difference. apply Hn. by apply elem_of_singleton. }
  split; [by rewrite last_snoc|].
  exists w1, w2. rewrite (bind_Ok _ _ _ _ _ Ha).
  split; [done|]. split; [|done].
  injection Hb as <-. simpl. apply elem_of_union_l. by apply elem_of_singleton.
Qed.

(** *** Fuel *)

(** A result, once reached, is the result for every larger fuel: what the
    loops return does not depend on the bound put on them. *)
Lemma bind_mono {W A B} (m m' : M W A) (f f' : A → M W B) (w : W) x :
  (∀ y, m w = Some y → m' w = Some y) →
  (∀ a (w1 : W) y, f a w1 = Some y → f' a w1 = Some y) →
  (m ≫= f) w = Some x → (m' ≫= f') w = Some x.
Proof.
  intros Hm Hf. unfold_M.
  destruct (m w) as [[[a|e] w1]|] eqn:Hmw; [| |done];
    rewrite (Hm _ eq_refl); [apply Hf|done].
Qed.

Lemma on_reset_from_mono fuel fuel' i w x :
  (fuel ≤ fuel')%nat →
  on_reset_from fuel i w = Some x → on_reset_from fuel' i w = Some x.
Proof.
  revert fuel' i w x. induction fuel as [|fuel IH]; intros fuel' i w x Hle;
    destruct fuel' as [|fuel']; try lia; cbn [on_reset_from];
    destruct (_reset_callbacks (base w) !! i) as [c|]; try done.
  apply bind_mono; [done|]. intros [] w1 y. apply IH. lia.
Qed.

Lemma run_body_mono func reset fuel fuel' reset_required w x :
  (fuel ≤ fuel')%nat →
  run_body func reset fuel reset_required w = Some x →
  run_body func reset fuel' reset_required w = Some x.
Proof.
  intros Hle. unfold run_body. apply bind_mono; [|done].
  destruct reset_required; [|done]. intros y.
  apply bind_mono; [done|]. intros [] w1 z. by apply on_reset_from_mono.
Qed.

Lemma run_loop_mono func reset fuel fuel' reset_required w x :
  (fuel ≤ fuel')%nat →
  run_loop func reset fuel reset_required w = Some x →
  run_loop func reset fuel' reset_required w = Some x.
Proof.
  revert fuel' reset_required w x.
  induction fuel as [|fuel IH]; intros fuel' reset_required w x Hle;
    [done|].
  destruct fuel' as [|fuel']; [lia|]. cbn [run_loop].
  apply bind_mono.
  - intros y. apply run_body_mono. lia.
  - intros [v|] w1 y; [done|]. apply IH. lia.
Qed.

Lemma run_fn_mono func reset state fuel fuel' w x :
  (fuel ≤ fuel')%nat →
  run_fn func reset state fuel w = Some x →
  run_fn func reset state fuel' w = Some x.
Proof.
  intros Hle. unfold run_fn, wrapper.
  apply bind_mono; [done|]. intros [] w1 y.
  apply bind_mono; [done|]. intros [] w2 z.
  unfold try_finally.
  destruct (run_loop func reset fuel false w2) as [[r w3]|] eqn:Hloop;
    [|done].
  by rewrite (run_loop_mono _ _ _ _ _ _ _ Hle Hloop).
Qed.

(** The cleanup never hides the outcome of the loop: the wrapped function
    comes back as soon as the loop does. *)
Lemma run_fn_returns func reset state fuel w w1 r w2 :
  (notification_manager_init;; register_listener state) w = Some (Ok tt, w1) →
  run_loop func reset fuel false w1 = Some (r, w2) →
  ∃ w', run_fn func reset state fuel w = Some (r, w').
Proof.
  intros Hreg Hloop. unfold run_fn, wrapper.
  apply bind_Some in Hreg as [([] & wa & Ha & Hb)|(e & _ & [=])].
  rewrite (bind_Ok _ _ _ _ _ Ha), (bind_Ok _ _ _ _ _ Hb).
  unfold try_finally. rewrite Hloop. simpl. eauto.
Qed.

End StateTheory.

Section ObjectStateHistory.
Context `{U : Universe} {I : CallbackSem ObjectState}.
Implicit Types (w : World ObjectState) (ops : list op) (o : op).

#[global] Instance ObjectState_StateLaws : StateLaws ObjectState.
Proof. split. by intros b []. Qed.


Lemma save_base w r w1 : save w = Some (r, w1) → base w1 = base w.
Proof.
  intros H. by apply save_outcome in H as [(_ & ? & _ & ->)|[_ ->]].
Qed.

Lemma restore_base w r w1 : restore w = Some (r, w1) → base w1 = base w.
Proof.
  rewrite restore_eq. intros [= _ <-]. unfold base; simpl.
  apply _set_attrs_base.
Qed.

Lemma sync_base w r w1 : sync w = Some (r, w1) → base w1 = base w.
Proof.
  simpl. unfold ObjectState_sync.
  destruct (Nat.eqb _ _); [by intros [= _ <-]|]. unfold_M.
  destruct (bcast_dict _ _ _) as [[[d|e] e']|]; intros [= _ <-]; [|done].
  unfold base; simpl. by rewrite _set_attrs_base.
Qed.

(** [_update_known_hosts] on an [ObjectState]: the queue is emptied and the
    field takes the largest timestamp seen; what is saved and what is live
    stay. *)
Lemma _update_known_hosts_effect w r w1 :
  _update_known_hosts w = Some (r, w1) →
  _host_messages (base w1) = []
  ∧ _last_updated_timestamp (base w1) = largest_seen w
  ∧ _reset_callbacks (base w1) = _reset_callbacks (base w)
  ∧ _saved_state (self w1) = _saved_state (self w)
  ∧ attributes (self w1) = attributes (self w).
Proof.
  unfold _update_known_hosts. intros H.
  apply bind_Some in H as [(flag & wa & Hdrain & H)|(e & Hdrain & _)];
    rewrite drain_host_messages_eq in Hdrain; [|done].
  injection Hdrain as <- <-.
  assert (∀ (rb : result bool) w2,
            _sync_host_updates (local_updated w)
              (set_base_w
                 {| _host_messages := [];
                    _last_updated_timestamp := largest_seen w;
                    _reset_callbacks := _reset_callbacks (base w) |} w)
            = Some (rb, w2) →
            self w2 = set_object_base
                 {| _host_messages := [];
                    _last_updated_timestamp := largest_seen w;
                    _reset_callbacks := _reset_callbacks (base w) |} (self w))
    as Hself.
  { intros rb w2. simpl. unfold ObjectState_sync_host_updates, call_env.
    destruct (bcast_bool _ _ _) as [[? ?]|]; [|done]. by intros [= _ <-]. }
  apply bind_Some in H as [(g & wb & Hsync & H)|(e & Hsync & _)].
  - apply Hself in Hsync.
    assert (self w1 = self wb) as Heq.
    { destruct g; unfold_M; by injection H as _ <-. }
    unfold base. by rewrite Heq, Hsync.
  - apply Hself in Hsync. unfold base. by rewrite Hsync.
Qed.

(** C6: a [commit()] that ends with the membership-changed signal ran
    [save()] to its end first and then [_update_known_hosts()], which raised;
    the saved dictionary it leaves is the snapshot that [save()] took: every
    tracked name bound to the value that was live when [commit()] was
    called. *)
Theorem commit_saves_before_signal w w' :
  commit w = Some (Raise HostsUpdatedException, w') →
  ∃ w1,
    save w = Some (Ok tt, w1)
    ∧ _update_known_hosts w1 = Some (Raise HostsUpdatedException, w')
    ∧ _saved_state (self w') = _saved_state (self w1)
    ∧ dom (_saved_state (self w')) = dom (_saved_state (self w))
    ∧ attributes (self w') = attributes (self w)
    ∧ ∀ attr, attr ∈ dom (_saved_state (self w)) →
        is_Some (attributes (self w) !! attr)
        ∧ _saved_state (self w') !! attr = attributes (self w) !! attr.
Proof.
  unfold commit. intros H.
  apply bind_Some in H as [([] & w1 & Hsave & Hupd)|(e & Hsave & [= <-])].
  - exists w1. split; [done|]. split; [done|].
    apply _update_known_hosts_effect in Hupd as (_ & _ & _ & Hsaved & Hattrs).
    apply save_Ok in Hsave as (new_state & Hsnap & ->). simpl in *.
    rewrite Hsaved, Hattrs. split; [done|].
    split; [by apply snapshot_dom|]. split; [done|].
    intros attr Htracked. apply elem_of_dom in Htracked.
    destruct (snapshot_tracked _ _ attr Hsnap Htracked) as [Hnew Hlive].
    done.
  - by apply save_outcome in Hsave as [[[=] _]|[[=] _]].
Qed.

(** *** The timestamp field along a history *)

Lemma on_reset_from_keeps {A} (field : State → A) :
  callbacks_keep field →
  ∀ fuel i w r w1,
    on_reset_from fuel i w = Some (r, w1) → field (base w1) = field (base w).
Proof.
  intros Hkeep fuel. induction fuel as [|fuel IH]; intros i w r w1;
    cbn [on_reset_from];
    destruct (_reset_callbacks (base w) !! i) as [c|]; try done;
    try (by intros [= _ <-]).
  unfold_M.
  destruct (invoke c (self w, env w)) as [[[[]|e] [s' e']]|] eqn:Hc;
    [|intros [= _ <-]|done].
  - intros H. apply IH in H. rewrite H. unfold base; simpl.
    by apply (Hkeep _ _ _ _ _ _ Hc).
  - unfold base; simpl. by apply (Hkeep _ _ _ _ _ _ Hc).
Qed.

Lemma largest_seen_ge w : _last_updated_timestamp (base w) ≤ largest_seen w.
Proof. apply foldr_max_le. Qed.

Lemma largest_seen_eq w w1 :
  _host_messages (base w1) = _host_messages (base w) →
  _last_updated_timestamp (base w1) = _last_updated_timestamp (base w) →
  largest_seen w1 = largest_seen w.
Proof. unfold largest_seen. by intros -> ->. Qed.

(** Each operation leaves the field where it was or moves it up, and only a
    delivery changes the largest timestamp seen. *)
Lemma step_timestamp fuel o w r w1 :
  callbacks_keep _host_messages →
  callbacks_keep _last_updated_timestamp →
  step fuel o w = Some (r, w1) →
  _last_updated_timestamp (base w) ≤ _last_updated_timestamp (base w1)
  ∧ largest_seen w1
    = match o with
      | OpHostsUpdated timestamp => Z.max timestamp (largest_seen w)
      | _ => largest_seen w
      end.
Proof.
  intros Hq Hl Hstep.
  assert (base w1 = base w →
          _last_updated_timestamp (base w) ≤ _last_updated_timestamp (base w1)
          ∧ largest_seen w1 = largest_seen w) as Hsame.
  { intros Hb. unfold largest_seen. rewrite Hb. split; [reflexivity|done]. }
  destruct o as [t| | | | |cbs|]; simpl in Hstep.
  - injection Hstep as _ <-. clear Hsame. unfold largest_seen.
    rewrite !base_set_base_w. cbn [_host_messages _last_updated_timestamp].
    split; [reflexivity|]. apply foldr_max_snoc.
  - unfold commit in Hstep.
    apply bind_Some in Hstep as [([] & wa & Hsave & Hupd)|(e & Hsave & _)].
    + apply save_base in Hsave.
      apply _update_known_hosts_effect in Hupd as (Hq1 & Hl1 & _).
      assert (largest_seen wa = largest_seen w) as Hwa.
      { unfold largest_seen. by rewrite Hsave. }
      split.
      * rewrite Hl1, Hwa. apply largest_seen_ge.
      * unfold largest_seen at 1. by rewrite Hq1, Hl1.
    + apply Hsame. by eapply save_base.
  - apply Hsame. by eapply save_base.
  - apply Hsame. by eapply restore_base.
  - apply Hsame. by eapply sync_base.
  - destruct (register_reset_callbacks_spec cbs w)
      as (w1' & Hr & _ & Hq1 & Hl1 & _).
    rewrite Hr in Hstep. injection Hstep as _ <-.
    rewrite (largest_seen_eq _ _ Hq1 Hl1), Hl1. split; [reflexivity|done].
  - unfold on_reset in Hstep.
    pose proof (on_reset_from_keeps _ Hq _ _ _ _ _ Hstep) as Hq1.
    pose proof (on_reset_from_keeps _ Hl _ _ _ _ _ Hstep) as Hl1.
    rewrite (largest_seen_eq _ _ Hq1 Hl1), Hl1. split; [reflexivity|done].
Qed.

Lemma run_ops_timestamp fuel ops w w1 :
  callbacks_keep _host_messages →
  callbacks_keep _last_updated_timestamp →
  run_ops fuel ops w = Some w1 →
  _last_updated_timestamp (base w) ≤ _last_updated_timestamp (base w1)
  ∧ largest_seen w1 = foldr Z.max (largest_seen w) (delivered ops).
Proof.
  intros Hq Hl. revert w. induction ops as [|o ops IH]; intros w; simpl.
  - intros [= <-]. split; [reflexivity|done].
  - destruct (step fuel o w) as [[r wa]|] eqn:Hstep; [|done].
    intros Hrun. apply IH in Hrun as [Hle Hseen].
    destruct (step_timestamp _ _ _ _ _ Hq Hl Hstep) as [Hle1 Hseen1].
    split; [by etrans|]. rewrite Hseen, Hseen1.
    destruct o as [t| | | | | |]; simpl; try done.
    rewrite (Z.max_comm t), foldr_max_max. apply Z.max_comm.
Qed.

Lemma foldr_max_Permutation (ts ts' : list Z) a :
  ts ≡ₚ ts' → foldr Z.max a ts = foldr Z.max a ts'.
Proof.
  induction 1 as [|t ts ts' _ IH|t t' ts|ts ts' ts'' _ IH1 _ IH2]; simpl;
    [done|by rewrite IH|lia|congruence].
Qed.

(** C3, with the initial value of the field counted in: on an
    [ObjectState] fresh from its constructor, after any
    history of operations during which the reset callbacks leave the queue
    and the field alone, a [commit()] that returns or raises the
    membership-changed signal leaves [_last_updated_timestamp] equal to the
    largest of 0, its initial value, and every timestamp delivered so far,
    in whatever order they were delivered; and no operation ever lowers the
    field. *)
Theorem last_updated_timestamp_is_max_seen
    bcast_object kwargs e manager fuel ops w r w' :
  callbacks_keep _host_messages →
  callbacks_keep _last_updated_timestamp →
  run_ops fuel ops
    (mkWorld (ObjectState_init bcast_object kwargs) e manager []) = Some w →
  commit w = Some (r, w') →
  r = Ok tt ∨ r = Raise HostsUpdatedException →
  _last_updated_timestamp (base w') = foldr Z.max 0 (delivered ops)
  ∧ (∀ timestamps, timestamps ≡ₚ delivered ops →
       _last_updated_timestamp (base w') = foldr Z.max 0 timestamps)
  ∧ (∀ o wa ra wb, step fuel o wa = Some (ra, wb) →
       _last_updated_timestamp (base wa) ≤ _last_updated_timestamp (base wb)).
Proof.
  intros Hq Hl Hrun Hcommit Hr.
  assert (_last_updated_timestamp (base w') = foldr Z.max 0 (delivered ops))
    as Hlast.
  { apply (run_ops_timestamp _ _ _ _ Hq Hl) in Hrun as [_ Hseen].
    rewrite ObjectState_init_spec in Hseen.
    unfold largest_seen at 2 in Hseen. simpl in Hseen. rewrite <- Hseen.
    unfold commit in Hcommit.
    apply bind_Some in Hcommit
      as [([] & wa & Hsave & Hupd)|(e' & Hsave & ->)].
    - apply save_base in Hsave.
      apply _update_known_hosts_effect in Hupd as (_ & -> & _).
      unfold largest_seen. by rewrite Hsave.
    - apply save_outcome in Hsave as [[[=] _]|[[= ->] _]].
      by destruct Hr. }
  split; [done|]. split.
  - intros timestamps Hperm. rewrite Hlast.
    symmetry. by apply foldr_max_Permutation.
  - intros o wa ra wb Hstep.
    by destruct (step_timestamp _ _ _ _ _ Hq Hl Hstep).
Qed.

End ObjectStateHistory.

(** ** The properties on the concrete universe *)

Section Examples.
Import Demo.
#[local] Existing Instance demo_universe.
#[local] Existing Instance demo_invoke.

(** The demo callbacks never touch the inherited fields. *)
Lemma demo_callbacks_keep {A} (field : State → A) : callbacks_keep field.
Proof.
  intros c s e r s' e'. unfold invoke, demo_invoke. simpl.
  destruct (String.eqb c "boom"); [by intros [= _ <- _]|].
  destruct (String.eqb c "lr"); by intros [= _ <- _].
Qed.

(** First pass of the demo computation: a worker failure, hence
    [restore()] and a second pass with a reset. *)
Lemma run_loop_on_failure_witness :
  run_loop demo_func demo_reset 3 false (demo_world demo_state)
  = (restore;; run_loop demo_func demo_reset 2 true)
      (after (call_ext CallFunc demo_func)
         (after sync (demo_world demo_state))).
Proof.
  apply (run_loop_on_failure demo_func demo_reset 2 false
           (demo_world demo_state) (after sync (demo_world demo_state))
           HorovodInternalError).
  - vm_compute. reflexivity.
  - vm_compute. reflexivity.
Defined.

(** The three passes of the demo computation: failure, host update,
    return; the epoch set by the failed pass is gone. *)
Example run_fn_demo :
  ∃ w', run_fn demo_func demo_reset 7 10 (demo_world demo_state)
        = Some (Ok 42, w')
     ∧ attributes (self w') !! "epoch"%string = Some 5
     ∧ env w' = 3%nat
     ∧ listeners (notification_manager w') = ∅.
Proof. eexists. vm_compute. repeat split. Qed.

(** An exception the loop does not know leaves at once. *)
Example run_fn_fatal :
  ∃ w', run_fn demo_fatal demo_reset 7 10 (demo_world demo_state)
        = Some (Raise (OtherError "fatal"), w')
     ∧ listeners (notification_manager w') = ∅.
Proof. eexists. vm_compute. repeat split. Qed.

(** Two participants, one of which has a timestamp pending: both raise. *)
Lemma membership_signal_is_global_witness :
  commit demo_pending
    = Some (Raise HostsUpdatedException,
            after (_sync_host_updates true)
              (after drain_host_messages (after save demo_pending)))
  ∧ ∀ out, out ∈ update_round [demo_pending; demo_quiet] →
      ∃ w', out = Some (Raise HostsUpdatedException, w').
Proof.
  destruct (membership_signal_is_global demo_pending (after save demo_pending)
              true (after drain_host_messages (after save demo_pending))
              true
              (after (_sync_host_updates true)
                 (after drain_host_messages (after save demo_pending)))
              [demo_pending; demo_quiet])
    as [(_ & Hcommit & _) [[_ Hall]|[Hor _]]].
  - vm_compute. reflexivity.
  - vm_compute. reflexivity.
  - vm_compute. reflexivity.
  - split; [exact Hcommit|exact Hall].
  - vm_compute in Hor. discriminate Hor.
Defined.

(** Timestamps 3, then 100 and 50 out of order: the field ends at 100. *)
Lemma last_updated_timestamp_is_max_seen_witness :
  _last_updated_timestamp
    (base (after commit
             (after (on_hosts_updated 50)
                (after (on_reset 5)
                   (after (on_hosts_updated 100)
                      (after commit
                         (after (on_hosts_updated 3)
                            (demo_world demo_state))))))))
  = 100.
Proof.
  destruct (last_updated_timestamp_is_max_seen
              bcast_self {[ "epoch"%string := 5; "lr"%string := 1 ]}
              O (mkManager false ∅) 5%nat
              [OpHostsUpdated 3; OpCommit; OpHostsUpdated 100; OpReset;
               OpHostsUpdated 50]
              (after (on_hosts_updated 50)
                 (after (on_reset 5)
                    (after (on_hosts_updated 100)
                       (after commit
                          (after (on_hosts_updated 3)
                             (demo_world demo_state))))))
              (Raise HostsUpdatedException)
              (after commit
                 (after (on_hosts_updated 50)
                    (after (on_reset 5)
                       (after (on_hosts_updated 100)
                          (after commit
                             (after (on_hosts_updated 3)
                                (demo_world demo_state))))))))
    as (Hlast & _ & _).
  - apply demo_callbacks_keep.
  - apply demo_callbacks_keep.
  - vm_compute. reflexivity.
  - vm_compute. reflexivity.
  - right. reflexivity.
  - exact Hlast.
Defined.

(** C3 as the specification words it fails on a timestamp below the
    initial value of the field: after timestamp -5 is delivered and
    [commit()] returns, the field is 0 and not -5, the maximum of the
    timestamps seen. *)
Lemma last_updated_timestamp_not_max_delivered :
  ∃ w w',
    run_ops 0 [OpHostsUpdated (-5)] (demo_world demo_state) = Some w
    ∧ commit w = Some (Ok tt, w')
    ∧ max_timestamp (delivered [OpHostsUpdated (-5)]) = Some (-5)
    ∧ _last_updated_timestamp (base w') = 0
    ∧ Some (_last_updated_timestamp (base w'))
      ≠ max_timestamp (delivered [OpHostsUpdated (-5)]).
Proof.
  eexists _, _. split; [vm_compute; reflexivity|].
  split; [vm_compute; reflexivity|].
  split; [reflexivity|]. split; [reflexivity|].
  vm_compute. discriminate.
Qed.

(** An epoch set to 7 and saved survives a later rebinding to 9. *)
Lemma save_restore_witness :
  ∃ w3,
    restore
      (demo_world
         (@setattr demo_universe "epoch" 9
            (self (after save
                     (demo_world (@setattr demo_universe "epoch" 7
                                    demo_state))))))
    = Some (Ok tt, w3)
    ∧ attributes (self w3) !! "epoch"%string = Some 7.
Proof.
  destruct (save_restore
              (demo_world (@setattr demo_universe "epoch" 7 demo_state))
              (after save
                 (demo_world (@setattr demo_universe "epoch" 7 demo_state))))
    as [_ H].
  - vm_compute. reflexivity.
  - destruct (H (demo_world
                   (@setattr demo_universe "epoch" 9
                      (self (after save
                               (demo_world (@setattr demo_universe "epoch" 7
                                              demo_state)))))))
      as (w3 & Hr & _ & Ha).
    + vm_compute. reflexivity.
    + exists w3. split; [exact Hr|].
      destruct (Ha "epoch"%string) as [_ He].
      * vm_compute. reflexivity.
      * etrans; [exact He|]. vm_compute. reflexivity.
Defined.

(** C4 as the specification words it fails when a [sync()] comes between
    the [save()] and the [restore()]: with epoch 7 saved and a broadcast
    that returns epoch 4, [restore()] binds epoch to 4 and not to the 7 of
    the last [save()]. *)
Lemma restore_after_sync_not_last_save :
  ∃ w1 w2 w3,
    ObjectState_save
      (demo_world (@setattr demo_universe "epoch" 7 (self demo_follower)))
      = Some (Ok tt, w1)
    ∧ _saved_state (self w1) !! "epoch"%string = Some 7
    ∧ ObjectState_sync w1 = Some (Ok tt, w2)
    ∧ ObjectState_restore w2 = Some (Ok tt, w3)
    ∧ attributes (self w3) !! "epoch"%string = Some 4
    ∧ attributes (self w3) !! "epoch"%string
      ≠ _saved_state (self w1) !! "epoch"%string.
Proof.
  eexists _, _, _. split; [vm_compute; reflexivity|].
  split; [vm_compute; reflexivity|].
  split; [vm_compute; reflexivity|].
  split; [vm_compute; reflexivity|].
  split; [vm_compute; reflexivity|].
  vm_compute. discriminate.
Qed.

(** The demo computation comes back with state 7 deregistered. *)
Lemma run_fn_deregisters_witness :
  7%nat ∉ listeners
          (notification_manager
             (after (run_fn demo_func demo_reset 7 10)
                (demo_world demo_state))).
Proof.
  destruct (run_fn_deregisters demo_func demo_reset 7 10
              (demo_world demo_state) (Ok 42)
              (after (run_fn demo_func demo_reset 7 10)
                 (demo_world demo_state)))
    as (Hout & _ & _).
  - vm_compute. reflexivity.
  - exact Hout.
Defined.

(** A commit with epoch rebound to 6 and a timestamp pending raises the
    signal with epoch 6 saved. *)
Lemma commit_saves_before_signal_witness :
  _saved_state
    (self (after commit
             (after (on_hosts_updated 100)
                (demo_world (@setattr demo_universe "epoch" 6 demo_state)))))
    !! "epoch"%string
  = Some 6.
Proof.
  destruct (commit_saves_before_signal
              (after (on_hosts_updated 100)
                 (demo_world (@setattr demo_universe "epoch" 6 demo_state)))
              (after commit
                 (after (on_hosts_updated 100)
                    (demo_world
                       (@setattr demo_universe "epoch" 6 demo_state)))))
    as (w1 & _ & _ & _ & _ & _ & Hsaved).
  - vm_compute. reflexivity.
  - destruct (Hsaved "epoch"%string) as [_ He].
    + vm_compute. reflexivity.
    + etrans; [exact He|]. vm_compute. reflexivity.
Defined.

(** Registering a and lr, then c: [on_reset()] calls a, lr, c. *)
Lemma reset_callbacks_in_registration_order_witness :
  ∃ w1 w2,
    (register_reset_callbacks ["a"; "lr"]%string;;
     register_reset_callbacks ["c"%string]) (demo_world demo_state)
      = Some (Ok tt, w1)
    ∧ _reset_callbacks (base w1) = ["a"; "lr"; "c"]%string
    ∧ on_reset 3 w1 = Some (Ok tt, w2)
    ∧ ∃ n, calls w2
           = calls w1 ++ (CallCallback <$> take n (_reset_callbacks (base w1)))
         ∧ n = length (_reset_callbacks (base w1)).
Proof.
  destruct (reset_callbacks_in_registration_order
              (demo_world demo_state) ["a"; "lr"]%string ["c"%string] 3)
    as (w1 & Hreg & Hlist & _ & _ & Htrace).
  - apply demo_callbacks_keep.
  - vm_compute. lia.
  - exists w1, (after (on_reset 3) w1).
    assert (w1 = after (register_reset_callbacks ["a"; "lr"]%string;;
                        register_reset_callbacks ["c"%string])
                   (demo_world demo_state)) as Hw1.
    { unfold after. rewrite Hreg. reflexivity. }
    assert (on_reset 3 w1 = Some (Ok tt, after (on_reset 3) w1)) as Hrun.
    { rewrite Hw1. vm_compute. reflexivity. }
    split; [exact Hreg|]. split; [exact Hlist|]. split; [exact Hrun|].
    exact (Htrace _ _ Hrun).
Defined.

(** A failing callback ends the walk: c is never called. *)
Example on_reset_aborts :
  ∃ w', (register_reset_callbacks ["a"; "boom"; "c"]%string;; on_reset 3)
          (demo_world demo_state)
        = Some (Raise (OtherError "boom"), w')
     ∧ calls w' = [CallCallback "a"%string; CallCallback "boom"%string].
Proof. eexists. vm_compute. split; reflexivity. Qed.

(** [sync()] on the demo object that tracks nothing. *)
Lemma sync_empty_witness :
  sync (demo_world demo_empty) = Some (Ok tt, demo_world demo_empty).
Proof. apply sync_empty. vm_compute. reflexivity. Defined.

(** After a [sync()] that received epoch 4, [restore()] brings back epoch 4
    over any later rebinding, not the 5 the object was built with. *)
Lemma sync_replaces_snapshot_witness :
  ∃ w1,
    sync demo_follower = Some (Ok tt, w1)
    ∧ _saved_state (self w1) = {[ "epoch"%string := 4 ]}
    ∧ ∃ w3,
        restore (set_self (@setattr demo_universe "epoch" 9 (self w1)) w1)
          = Some (Ok tt, w3)
        ∧ attributes (self w3) !! "epoch"%string = Some 4.
Proof.
  destruct (sync_replaces_snapshot demo_follower {[ "epoch"%string := 4 ]} O)
    as (w1 & Hsync & Hsaved & _ & _ & Hrestore).
  - intros Hempty. vm_compute in Hempty. discriminate Hempty.
  - vm_compute. reflexivity.
  - exists w1. split; [exact Hsync|]. split; [exact Hsaved|].
    destruct (Hrestore
                (set_self (@setattr demo_universe "epoch" 9 (self w1)) w1))
      as (w3 & Hr & Ha).
    + reflexivity.
    + exists w3. split; [exact Hr|]. apply Ha. vm_compute. reflexivity.
Defined.


End Examples.

(** ** Further properties of the base class and of the run loop *)

Section MoreStateTheory.
Context `{U : Universe} {S : Type} {C : StateClass S} {I : CallbackSem S}.
Implicit Types (w : World S) (q : list Z) (last t : Z).
Implicit Types (func : Ext S Value) (reset : Ext S unit).
Implicit Types (reset_required : bool).

Lemma foldr_max_lt q last :
  last < foldr Z.max last q ↔ ∃ t, t ∈ q ∧ last < t.
Proof.
  induction q as [|t q IH]; simpl.
  - split; [lia|]. by intros (t & ?%elem_of_nil & _).
  - pose proof (foldr_max_le q last). split.
    + intros Hlt. destruct (Z.ltb_spec last t) as [Ht|Ht].
      * exists t. split; [apply list_elem_of_here|done].
      * destruct IH as [IH _]. destruct IH as (t' & Hin & Hlt'); [lia|].
        exists t'. split; [by apply list_elem_of_further|done].
    + intros (t' & Hin & Hlt). apply elem_of_cons in Hin as [->|Hin]; [lia|].
      destruct IH as [_ IH]. assert (last < foldr Z.max last q) by eauto.
      lia.
Qed.

(** The flag that [_update_known_hosts] computes before the collective
    call is set exactly when some queued timestamp is strictly above the
    field; a timestamp equal to the field, or older, does not count, and
    then the drain leaves the field where it was. *)
Theorem local_updated_iff w :
  (local_updated w = true ↔
     ∃ t, t ∈ _host_messages (base w) ∧ _last_updated_timestamp (base w) < t)
  ∧ (local_updated w = false →
     largest_seen w = _last_updated_timestamp (base w)).
Proof.
  unfold local_updated, largest_seen. rewrite drain_updated. simpl.
  split.
  - rewrite bool_decide_eq_true. apply foldr_max_lt.
  - rewrite bool_decide_eq_false.
    pose proof (foldr_max_le (_host_messages (base w))
                  (_last_updated_timestamp (base w))). lia.
Qed.

(** An exception out of the steps that precede [func] in a pass ([reset],
    a reset callback, [sync]) is not caught by the loop, whatever its
    class, [HorovodInternalError] and [HostsUpdatedException] included: the
    loop ends with it, in the store those steps left. *)
Theorem run_loop_prelude_failure func reset fuel reset_required w e w1 :
  ((if reset_required then call_ext CallReset reset;; on_reset fuel
    else mret tt);; sync) w = Some (Raise e, w1) →
  run_loop func reset (Datatypes.S fuel) reset_required w
  = Some (Raise e, w1).
Proof.
  intros Hpre. cbn [run_loop]. unfold run_body.
  apply bind_Some in Hpre as [([] & wa & Ha & Hsync)|(e' & Ha & [= <-])].
  - rewrite bind_assoc, (bind_Ok _ _ _ _ _ Ha).
    rewrite bind_assoc. by rewrite (bind_Raise _ _ _ _ _ Hsync).
  - rewrite bind_assoc. by rewrite (bind_Raise _ _ _ _ _ Ha).
Qed.

(** When [sync()] returns and [func] returns a value at its first call, the
    wrapped function returns that value after deregistering the state:
    neither [reset] nor [restore] runs. *)
Theorem run_fn_first_pass_returns func reset state fuel w w1 v w2 :
  sync (after (notification_manager_init;; register_listener state) w)
    = Some (Ok tt, w1) →
  call_ext CallFunc func w1 = Some (Ok v, w2) →
  run_fn func reset state (Datatypes.S fuel) w
  = Some (Ok v, after (remove_listener state) w2).
Proof.
  intros Hsync Hfunc. unfold run_fn, wrapper.
  unfold after in Hsync. simpl in Hsync.
  erewrite bind_Ok; [|reflexivity].
  erewrite bind_Ok; [|reflexivity].
  unfold try_finally.
  rewrite (run_loop_on_return func reset fuel false _ w1 v w2); [done| |done].
  erewrite bind_Ok; [exact Hsync|reflexivity].
Qed.

(** *** Callbacks that register callbacks *)

Lemma on_reset_from_extend :
  callbacks_extend →
  ∀ fuel i w w',
    on_reset_from fuel i w = Some (Ok tt, w') →
    ∃ more,
      _reset_callbacks (base w') = _reset_callbacks (base w) ++ more
      ∧ calls w'
        = calls w ++ (CallCallback <$> drop i (_reset_callbacks (base w'))).
Proof.
  intros Hext fuel. induction fuel as [|fuel IH]; intros i w w';
    cbn [on_reset_from];
    destruct (_reset_callbacks (base w) !! i) as [c|] eqn:Hi; try done.
  - intros [= <-]. exists []. rewrite !app_nil_r.
    apply lookup_ge_None in Hi. by rewrite drop_ge, app_nil_r.
  - intros H. apply bind_Some in H as [([] & wa & Hc & Hrest)|(e & _ & [=])].
    assert (calls wa = calls w ++ [CallCallback c]
            ∧ ∃ more, _reset_callbacks (base wa)
                      = _reset_callbacks (base w) ++ more)
      as [Hcalls (more1 & Hl1)].
    { revert Hc. unfold call_ext.
      destruct (invoke c (self w, env w)) as [[r [s' e']]|] eqn:Hinv;
        [|done].
      intros [= _ <-]. split; [done|]. unfold base; simpl.
      by apply (Hext _ _ _ _ _ _ Hinv). }
    apply IH in Hrest as (more2 & Hl2 & Hcalls2).
    exists (more1 ++ more2). split.
    + by rewrite Hl2, Hl1, <- (assoc_L (++)).
    + rewrite Hcalls2, Hcalls, <- (assoc_L (++)). f_equal. simpl.
      rewrite (drop_S (_reset_callbacks (base w')) c i); [done|].
      rewrite Hl2, Hl1, <- (assoc_L (++)).
      by apply lookup_app_l_Some.
  - intros [= <-]. exists []. rewrite !app_nil_r.
    apply lookup_ge_None in Hi. by rewrite drop_ge, app_nil_r.
Qed.

(** [on_reset()] walks the live list: when callbacks only ever add
    callbacks, an [on_reset()] that returns has invoked, in order and once
    each, every callback registered when it returns, those that were
    registered during the walk included. *)
Theorem on_reset_invokes_late_registrations fuel w w' :
  callbacks_extend →
  on_reset fuel w = Some (Ok tt, w') →
  ∃ more,
    _reset_callbacks (base w') = _reset_callbacks (base w) ++ more
    ∧ calls w'
      = calls w ++ (CallCallback <$> (_reset_callbacks (base w) ++ more)).
Proof.
  intros Hext Hrun. unfold on_reset in Hrun.
  apply (on_reset_from_extend Hext) in Hrun as (more & Hl & Hcalls).
  exists more. split; [done|]. by rewrite Hcalls, drop_0, Hl.
Qed.

(** In a round of [_update_known_hosts] with the OR reading, each
    participant comes back with its own queue empty and its own field at
    the largest timestamp it had itself seen, its callbacks kept, and the
    participants raise the signal exactly when some participant had queued a
    timestamp above its own field. *)
Theorem update_round_effect `{!StateLaws S} (ws : list (World S)) i w :
  ws !! i = Some w →
  ∃ r w',
    update_round ws !! i = Some (Some (r, w'))
    ∧ _host_messages (base w') = []
    ∧ _last_updated_timestamp (base w') = largest_seen w
    ∧ _reset_callbacks (base w') = _reset_callbacks (base w)
    ∧ (r = Raise HostsUpdatedException ∨ r = Ok tt)
    ∧ (r = Raise HostsUpdatedException ↔
         ∃ p t, p ∈ ws ∧ t ∈ _host_messages (base p)
                ∧ _last_updated_timestamp (base p) < t).
Proof.
  intros Hw.
  assert (foldr orb false (local_updated <$> ws) = true ↔
          ∃ p t, p ∈ ws ∧ t ∈ _host_messages (base p)
                 ∧ _last_updated_timestamp (base p) < t) as Hor.
  { clear. induction ws as [|p ws IH]; simpl.
    - split; [done|]. by intros (p & t & ?%elem_of_nil & _).
    - rewrite orb_true_iff, IH.
      destruct (local_updated_iff p) as [Hp _]. rewrite Hp. split.
      + intros [(t & Ht & Hlt)|(p' & t & Hp' & Ht & Hlt)].
        * exists p, t. split; [apply list_elem_of_here|done].
        * exists p', t. split; [by apply list_elem_of_further|done].
      + intros (p' & t & Hp' & Ht & Hlt).
        apply elem_of_cons in Hp' as [->|Hp']; [left|right]; eauto. }
  unfold update_round. rewrite list_lookup_imap, Hw. simpl.
  unfold _update_known_hosts. unfold_M.
  change (@drain_host_messages _ _ (or_sync _) w)
    with (@drain_host_messages _ _ C w).
  rewrite drain_host_messages_eq. simpl.
  rewrite (foldr_orb_delete (local_updated <$> ws) i (local_updated w));
    [|by rewrite list_lookup_fmap, Hw].
  destruct (foldr orb false (local_updated <$> ws)) eqn:Hflag;
    try rewrite Hflag in Hor; eexists _, _;
    (split; [reflexivity|]); rewrite base_set_base_w; simpl;
    do 3 (split; [done|]); (split; [eauto|]); rewrite <- Hor;
    split; congruence.
Qed.

End MoreStateTheory.

(** ** Further properties of [ObjectState] *)

Section MoreObjectStateTheory.
Context `{U : Universe} {I : CallbackSem ObjectState}.
Implicit Types (o : ObjectState) (w : World ObjectState).
Implicit Types (d : gmap string Value) (attr : string).

(** Whatever the collective call answers or raises, a run of
    [_update_known_hosts] uses up the queued timestamps: the queue is empty,
    the field is at the largest timestamp seen, the local flag of a run that
    follows at once is not set and that run leaves the field alone.  A
    timestamp is thus counted once, also when the answer was false. *)
Theorem host_updates_counted_once w r w1 :
  _update_known_hosts w = Some (r, w1) →
  _host_messages (base w1) = []
  ∧ _last_updated_timestamp (base w1) = largest_seen w
  ∧ local_updated w1 = false
  ∧ ∀ r2 w2, _update_known_hosts w1 = Some (r2, w2) →
      _last_updated_timestamp (base w2) = _last_updated_timestamp (base w1).
Proof.
  intros H. apply _update_known_hosts_effect in H as (Hq & Hl & _).
  split; [done|]. split; [done|].
  assert (largest_seen w1 = _last_updated_timestamp (base w1)) as Hseen.
  { unfold largest_seen. by rewrite Hq. }
  split.
  - unfold local_updated. by rewrite Hq.
  - intros r2 w2 H2. apply _update_known_hosts_effect in H2 as (_ & -> & _).
    done.
Qed.

(** [save()] raises [AttributeError] exactly when some tracked name is no
    longer an attribute; it then changes nothing, and [commit()] raises the
    same error at once, the queue of host updates left as it was. *)
Theorem save_fails_iff_attribute_missing w :
  ((∃ attr, attr ∈ dom (_saved_state (self w))
            ∧ attributes (self w) !! attr = None)
   ↔ ObjectState_save w = Some (Raise AttributeError, w))
  ∧ (ObjectState_save w = Some (Raise AttributeError, w) →
     commit w = Some (Raise AttributeError, w))
  ∧ (∀ r w1, ObjectState_save w = Some (r, w1) → r ≠ Ok tt →
     r = Raise AttributeError ∧ w1 = w).
Proof.
  pose proof (snapshot_spec (self w)) as Hs. unfold ObjectState_save.
  split; [|split].
  - split.
    + intros (attr & Htracked & Hgone).
      destruct (snapshot (self w)) as [new_state|]; [|done].
      apply elem_of_dom in Htracked. destruct (Hs attr) as [_ Hlive].
      apply Hlive in Htracked as [v Hv]. congruence.
    + destruct (snapshot (self w)) as [new_state|]; [done|]. intros _.
      destruct Hs as (attr & Htracked & Hgone). exists attr.
      split; [by apply elem_of_dom|done].
  - intros Hsave. unfold commit. unfold_M.
    change (save w) with (ObjectState_save w). unfold ObjectState_save.
    by rewrite Hsave.
  - intros r w1.
    destruct (snapshot (self w)) as [new_state|]; intros [= <- <-]; done.
Qed.

Lemma on_reset_from_preserves (P : ObjectState → Prop) :
  (∀ c s e r s' e', invoke c (s, e) = Some (r, (s', e')) → P s → P s') →
  ∀ fuel i w r w1,
    on_reset_from fuel i w = Some (r, w1) → P (self w) → P (self w1).
Proof.
  intros Hkeep fuel. induction fuel as [|fuel IH]; intros i w r w1;
    cbn [on_reset_from];
    destruct (_reset_callbacks (base w) !! i) as [c|]; try done;
    try (by intros [= _ <-]).
  unfold_M.
  destruct (invoke c (self w, env w)) as [[[[]|e] [s' e']]|] eqn:Hc;
    [|intros [= _ <-]|done].
  - intros H HP. apply IH in H; [done|]. simpl. by eapply Hkeep.
  - simpl. by eapply Hkeep.
Qed.

Lemma tracked_live_set_attrs o : tracked_live (_set_attrs o).
Proof.
  unfold tracked_live. rewrite _set_attrs_spec. simpl.
  rewrite dom_union_L. set_solver.
Qed.

(** The constructor leaves every tracked name an attribute, and every
    operation of the object keeps it so, as long as the reset callbacks do;
    while it holds, [save()] cannot fail. *)
Theorem tracked_live_invariant bcast_object kwargs fuel operation w r w1 :
  (∀ c s e r' s' e',
     invoke c (s, e) = Some (r', (s', e')) → tracked_live s → tracked_live s') →
  tracked_live (self w) →
  step fuel operation w = Some (r, w1) →
  tracked_live (ObjectState_init bcast_object kwargs)
  ∧ tracked_live (self w1)
  ∧ (operation = OpSave → r = Ok tt)
  ∧ ∃ w2, ObjectState_save w1 = Some (Ok tt, w2).
Proof.
  intros Hcb Hlive Hstep.
  split; [apply tracked_live_set_attrs|].
  assert (∀ w' r' w1', ObjectState_save w' = Some (r', w1') →
            tracked_live (self w') → r' = Ok tt ∧ tracked_live (self w1'))
    as Hsave.
  { intros w' r' w1' H Hl. destruct (save_succeeds w' Hl) as [w2 Hok].
    simpl in Hok. rewrite Hok in H. injection H as <- <-. split; [done|].
    apply save_Ok in Hok as (new_state & Hsnap & ->). unfold tracked_live.
    simpl. by rewrite (snapshot_dom _ _ Hsnap). }
  assert (∀ w' r' w1', ObjectState_sync w' = Some (r', w1') →
            tracked_live (self w') → tracked_live (self w1')) as Hsync.
  { intros w' r' w1'. unfold ObjectState_sync.
    destruct (Nat.eqb _ _); [by intros [= _ <-]|]. unfold_M.
    destruct (bcast_dict _ _ _) as [[[d|e] e']|]; intros [= _ <-]; [|done].
    intros _. simpl. apply tracked_live_set_attrs. }
  assert (tracked_live (self w1) ∧ (operation = OpSave → r = Ok tt))
    as [Hl1 Hr].
  { destruct operation as [t| | | | |cbs|]; simpl in Hstep.
    - injection Hstep as _ <-. done.
    - unfold commit in Hstep.
      apply bind_Some in Hstep as [([] & wa & Hs & Hupd)|(e & Hs & _)].
      + apply Hsave in Hs as [_ Hla]; [|done].
        apply _update_known_hosts_effect in Hupd as (_ & _ & _ & Hsv & Hat).
        unfold tracked_live. by rewrite Hsv, Hat.
      + apply Hsave in Hs as [_ Hla]; done.
    - apply Hsave in Hstep as [-> Hl1]; done.
    - injection Hstep as _ <-. split; [|done]. apply tracked_live_set_attrs.
    - split; [|done]. by eapply Hsync.
    - injection Hstep as _ <-. done.
    - split; [|done].
      by apply (on_reset_from_preserves tracked_live Hcb _ _ _ _ _ Hstep). }
  split; [done|]. split; [done|].
  destruct (save_succeeds w1 Hl1) as [w2 Hok]. eauto.
Qed.

(** When the broadcast hands back the dictionary it was given (this worker
    is the source), [sync()] leaves the object exactly as [restore()] does:
    rebindings of tracked attributes made since the last [save()] are
    dropped by [sync()] too. *)
Theorem sync_from_self_is_restore w e' :
  bcast_dict (_bcast_object (self w)) (_saved_state (self w)) (env w)
    = Some (Ok (_saved_state (self w)), e') →
  ∃ w1 w2,
    ObjectState_sync w = Some (Ok tt, w1)
    ∧ ObjectState_restore w = Some (Ok tt, w2)
    ∧ self w1 = self w2
    ∧ ∀ attr value, _saved_state (self w) !! attr = Some value →
        attributes (self w1) !! attr = Some value.
Proof.
  intros Hbcast. unfold ObjectState_sync, ObjectState_restore.
  destruct (Nat.eqb_spec (size (_saved_state (self w))) 0) as [Hz|Hnz].
  - apply map_size_empty_iff in Hz. eexists _, _.
    split; [reflexivity|]. split; [reflexivity|]. simpl. split.
    + rewrite _set_attrs_spec, Hz, (left_id_L ∅ (∪)).
      destruct (self w); simpl in *. by rewrite Hz.
    + intros attr value. by rewrite Hz, lookup_empty.
  - unfold_M. rewrite Hbcast. eexists _, _.
    split; [reflexivity|]. split; [reflexivity|]. simpl. split.
    + by destruct (self w).
    + intros attr value Hv. by apply _set_attrs_tracked.
Qed.

(** When the broadcast raises, [sync()] raises the same exception after that
    one broadcast call and leaves the object as it was: the saved
    dictionary is replaced only by a broadcast that returned. *)
Theorem sync_broadcast_failure w e e' :
  _saved_state (self w) ≠ ∅ →
  bcast_dict (_bcast_object (self w)) (_saved_state (self w)) (env w)
    = Some (Raise e, e') →
  ∃ w1,
    ObjectState_sync w = Some (Raise e, w1)
    ∧ self w1 = self w
    ∧ env w1 = e'
    ∧ calls w1 = calls w ++ [CallBcastDict (_saved_state (self w))].
Proof.
  intros Hne Hbcast. change (ObjectState_sync w) with (sync w).
  rewrite (sync_nonempty _ Hne). unfold_M. rewrite Hbcast.
  eexists. split; [reflexivity|]. done.
Qed.

(** [restore()] twice is [restore()] once; [save()] right after
    [restore()] returns normally and changes nothing, whatever the object
    was like before (tracked attributes deleted, say); and a [save()] right
    after a [save()] that returned changes nothing. *)
Theorem restore_save_compose w :
  (ObjectState_restore;; ObjectState_restore) w = ObjectState_restore w
  ∧ (ObjectState_restore;; ObjectState_save) w = ObjectState_restore w
  ∧ ∀ w1, ObjectState_save w = Some (Ok tt, w1) →
      ObjectState_save w1 = Some (Ok tt, w1).
Proof.
  assert (∀ o new_state,
            snapshot o = Some new_state →
            (∀ attr value, _saved_state o !! attr = Some value →
                           attributes o !! attr = Some value) →
            new_state = _saved_state o) as Hsame.
  { intros o new_state Hsnap Hagree. apply map_eq. intros attr.
    rewrite (snapshot_lookup _ _ _ Hsnap).
    destruct (_saved_state o !! attr) as [v|] eqn:Hv; [|done]. simpl.
    by apply Hagree. }
  assert (∀ w', (∀ attr value, _saved_state (self w') !! attr = Some value →
                   attributes (self w') !! attr = Some value) →
                ObjectState_save w' = Some (Ok tt, w')) as Hnoop.
  { intros w' Hagree.
    destruct (save_succeeds w') as [w2 Hok].
    { intros attr [v Hv]%elem_of_dom. apply elem_of_dom.
      rewrite (Hagree _ _ Hv). eauto. }
    simpl in Hok. rewrite Hok. f_equal. f_equal.
    apply save_Ok in Hok as (new_state & Hsnap & ->).
    rewrite (Hsame _ _ Hsnap Hagree). by destruct w' as [[] ? ? ?]. }
  split; [|split].
  - unfold ObjectState_restore. unfold_M. f_equal. f_equal.
    unfold set_self. simpl. f_equal.
    rewrite !_set_attrs_spec. simpl. f_equal.
    by rewrite (assoc_L (∪)), (idemp_L (∪)).
  - unfold mbind, M_bind. unfold ObjectState_restore at 1 2, modify.
    apply Hnoop. simpl. intros attr value.
    rewrite _set_attrs_saved. apply _set_attrs_tracked.
  - intros w1 Hsave.
    apply Hnoop. apply save_Ok in Hsave as (new_state & Hsnap & ->). simpl.
    intros attr value Hv. rewrite (snapshot_lookup _ _ _ Hsnap) in Hv.
    destruct (_saved_state (self w) !! attr); simpl in Hv; [done|discriminate].
Qed.

End MoreObjectStateTheory.

(** ** The calls the wrapped function makes *)

Section RunFnCalls.
Context `{U : Universe} {I : CallbackSem ObjectState}.
Implicit Types (w : World ObjectState) (l : list call) (p : call → bool).
Implicit Types (func : Ext ObjectState Value) (reset : Ext ObjectState unit).
Implicit Types (reset_required : bool).

Lemma count_calls_app p l1 l2 :
  count_calls p (l1 ++ l2) = (count_calls p l1 + count_calls p l2)%nat.
Proof. unfold count_calls. by rewrite filter_app, length_app. Qed.

Lemma appends_call_ext {A} c (f : Ext ObjectState A) :
  is_notifier c = false →
  appends (call_ext c f)
    (if is_reset c then 1 else 0) (if is_func c then 1 else 0).
Proof.
  intros Hc w r w'. unfold call_ext.
  destruct (f (self w, env w)) as [[? [? ?]]|]; [|done].
  intros [= _ <-]. exists [c]. simpl. split; [done|].
  unfold count_calls. rewrite !filter_cons, !filter_nil, Hc.
  by destruct c.
Qed.

Lemma appends_bind {A B} (m : M (World ObjectState) A)
    (f : A → M (World ObjectState) B) r1 f1 r2 f2 w r w' :
  appends m r1 f1 → (∀ a, appends (f a) r2 f2) →
  (m ≫= f) w = Some (r, w') →
  ∃ l, calls w' = calls w ++ l
    ∧ count_calls is_notifier l = 0%nat
    ∧ ((count_calls is_reset l = (r1 + r2)%nat
        ∧ count_calls is_func l = (f1 + f2)%nat)
       ∨ (count_calls is_reset l = r1 ∧ count_calls is_func l = f1
          ∧ ∃ e, r = Raise e)).
Proof.
  intros Hm Hf H.
  apply bind_Some in H as [(a & wa & Ha & Hb)|(e & Ha & ->)].
  - apply Hm in Ha as (l1 & Hl1 & ? & ? & ?).
    apply Hf in Hb as (l2 & Hl2 & ? & ? & ?).
    exists (l1 ++ l2). rewrite !count_calls_app.
    split; [by rewrite Hl2, Hl1, (assoc_L (++))|]. split; [lia|]. left. lia.
  - apply Hm in Ha as (l1 & Hl1 & ? & ? & ?). exists l1.
    split; [done|]. split; [done|]. right. eauto.
Qed.

Lemma appends_on_reset_from fuel i : appends (on_reset_from fuel i) 0 0.
Proof.
  revert i. induction fuel as [|fuel IH]; intros i w r w';
    cbn [on_reset_from];
    destruct (_reset_callbacks (base w) !! i) as [c|]; try done;
    try (intros [= _ <-]; exists []; by rewrite app_nil_r).
  intros H.
  eapply (appends_bind _ _ 0 0 0 0) in H as (l & Hl & Hn & Hcount).
  - exists l. split; [done|]. destruct Hcount as [[? ?]|(? & ? & _)]; done.
  - apply (appends_call_ext (CallCallback c)). done.
  - intros []. apply IH.
Qed.

Lemma appends_sync : appends ObjectState_sync 0 0.
Proof.
  intros w r w'. unfold ObjectState_sync.
  destruct (Nat.eqb _ _).
  { intros [= _ <-]. exists []. by rewrite app_nil_r. }
  unfold_M. destruct (bcast_dict _ _ _) as [[[d|e] e']|]; [| |done];
    intros [= _ <-]; by exists [CallBcastDict (_saved_state (self w))].
Qed.

Lemma appends_restore : appends ObjectState_restore 0 0.
Proof.
  intros w r w' [= _ <-]. exists []. by rewrite app_nil_r.
Qed.

Lemma appends_prelude reset fuel reset_required :
  appends (if reset_required then call_ext CallReset reset;; on_reset fuel
           else mret tt)
    (if reset_required then 1 else 0) 0.
Proof.
  destruct reset_required.
  - intros w r w' H.
    eapply (appends_bind _ _ 1 0 0 0) in H as (l & Hl & Hn & Hcount).
    + exists l. split; [done|].
      destruct Hcount as [[? ?]|(? & ? & _)]; split; (done || lia).
    + by apply (appends_call_ext CallReset).
    + intros []. apply appends_on_reset_from.
  - intros w r w' [= _ <-]. exists []. by rewrite app_nil_r.
Qed.

Lemma appends_attempt func :
  appends
    (try_except (v ← call_ext CallFunc func; mret (Returned v))
       (λ e, match e with
             | HorovodInternalError => Some (restore;; mret Retry)
             | HostsUpdatedException => Some (mret Retry)
             | _ => None
             end))
    0 1.
Proof.
  intros w r w'. unfold try_except.
  destruct ((v ← call_ext CallFunc func; mret (Returned v)) w)
    as [[rb wb]|] eqn:Hbody; [|done].
  assert (calls wb = calls w ++ [CallFunc]) as Hcalls.
  { revert Hbody. unfold_M.
    destruct (func (self w, env w)) as [[[v|e] [s' e']]|]; [| |done];
      by intros [= _ <-]. }
  assert (calls w' = calls wb → ∃ l, calls w' = calls w ++ l
            ∧ count_calls is_reset l = 0%nat
            ∧ count_calls is_func l = 1%nat
            ∧ count_calls is_notifier l = 0%nat) as Hdone.
  { intros ->. exists [CallFunc]. done. }
  destruct rb as [a|e].
  - intros [= _ <-]. by apply Hdone.
  - destruct e; intros [= _ <-]; by apply Hdone.
Qed.

(** One pass of the loop: [reset] is called once when a reset is due and
    not otherwise, [func] at most once, and once when the pass ends
    without an exception. *)
Lemma run_body_calls func reset fuel reset_required w r w' :
  run_body func reset fuel reset_required w = Some (r, w') →
  ∃ l, calls w' = calls w ++ l
    ∧ count_calls is_notifier l = 0%nat
    ∧ count_calls is_reset l = (if reset_required then 1 else 0)%nat
    ∧ (count_calls is_func l = 1%nat
       ∨ (count_calls is_func l = 0%nat ∧ ∃ e, r = Raise e)).
Proof.
  unfold run_body. intros H.
  apply bind_Some in H as [([] & wa & Ha & Hb)|(e & Ha & ->)].
  - apply appends_prelude in Ha as (l1 & Hl1 & Hr1 & Hf1 & Hn1).
    eapply (appends_bind _ _ 0 0 0 1) in Hb as (l2 & Hl2 & Hn2 & Hcount).
    + exists (l1 ++ l2). rewrite !count_calls_app, Hr1, Hf1, Hn1, Hn2.
      split; [by rewrite Hl2, Hl1, (assoc_L (++))|]. split; [done|].
      destruct Hcount as [[-> ->]|(-> & -> & ?)];
        (split; [by rewrite Nat.add_0_r|]).
      * by left.
      * by right.
    + apply appends_sync.
    + intros []. apply appends_attempt.
  - apply appends_prelude in Ha as (l1 & Hl1 & Hr1 & Hf1 & Hn1).
    exists l1. do 3 (split; [done|]). right. eauto.
Qed.

Lemma run_loop_calls func reset fuel reset_required w r w' :
  run_loop func reset fuel reset_required w = Some (r, w') →
  ∃ l, calls w' = calls w ++ l
    ∧ count_calls is_notifier l = 0%nat
    ∧ (count_calls is_func l
       ≤ count_calls is_reset l + (if reset_required then 0 else 1))%nat
    ∧ (count_calls is_reset l
       ≤ count_calls is_func l + (if reset_required then 1 else 0))%nat
    ∧ (∀ v, r = Ok v →
         count_calls is_func l
         = (count_calls is_reset l + (if reset_required then 0 else 1))%nat).
Proof.
  revert reset_required w.
  induction fuel as [|fuel IH]; intros reset_required w; [done|].
  cbn [run_loop]. intros H.
  apply bind_Some in H as [(a & w1 & Hbody & Hk)|(e & Hbody & ->)];
    apply run_body_calls in Hbody as (l1 & Hl1 & Hn1 & Hr1 & Hf1).
  - destruct Hf1 as [Hf1|(_ & e & [=])].
    destruct a as [v|].
    + injection Hk as <- <-. exists l1.
      split; [done|]. split; [done|].
      destruct reset_required; repeat split; intros; lia.
    + apply IH in Hk as (l2 & Hl2 & Hn2 & Hle1 & Hle2 & Hok).
      exists (l1 ++ l2). rewrite !count_calls_app.
      split; [by rewrite Hl2, Hl1, (assoc_L (++))|]. split; [lia|].
      destruct reset_required; repeat split; try lia;
        intros v Hv; specialize (Hok v Hv); lia.
  - exists l1. split; [done|]. split; [done|].
    destruct reset_required, Hf1 as [?|[? _]]; repeat split; try lia;
      intros v [=].
Qed.

(** The calls of one run of the wrapped function: [init] and
    [register_listener] first, [remove_listener] last and no call of the
    notifier in between; [reset] is never called before [func] has been
    called, and at most once per call of [func]; when the run returns a
    value, [reset] ran once between every two calls of [func]. *)
Theorem run_fn_calls func reset state fuel w r w' :
  run_fn func reset state fuel w = Some (r, w') →
  ∃ l,
    calls w'
      = calls w ++ [CallInit; CallRegisterListener state] ++ l
          ++ [CallRemoveListener state]
    ∧ count_calls is_notifier l = 0%nat
    ∧ (count_calls is_reset l ≤ count_calls is_func l)%nat
    ∧ (count_calls is_func l ≤ count_calls is_reset l + 1)%nat
    ∧ (∀ v, r = Ok v →
         count_calls is_func l = (count_calls is_reset l + 1)%nat).
Proof.
  unfold run_fn, wrapper. intros H.
  apply bind_Some in H as [([] & wa & Ha & H)|(e & [=] & _)].
  apply bind_Some in H as [([] & wb & Hb & H)|(e & [=] & _)].
  injection Ha as <-. injection Hb as <-.
  unfold try_finally in H.
  destruct (run_loop func reset fuel false _) as [[r' w2]|] eqn:Hloop;
    [|done].
  injection H as Hr Hw. subst r' w'.
  apply run_loop_calls in Hloop as (l & Hl & Hn & Hle1 & Hle2 & Hok).
  exists l. simpl in *. rewrite Hl.
  split; [by rewrite <- !(assoc_L (++))|]. split; [done|].
  split; [lia|]. split; [lia|]. intros v Hv. specialize (Hok v Hv). lia.
Qed.

End RunFnCalls.

(** ** The base class used as it is *)

Section BaseStateTheory.
Context `{U : Universe} {I : CallbackSem State}.

(** A bare [State] implements none of the abstract methods: [commit()]
    raises [NotImplementedError] from [save()] and changes nothing, and the
    wrapped function raises it from the first [sync()], after registering
    and deregistering the state and without ever calling [func] or
    [reset]. *)
Theorem base_state_is_abstract (func : Ext State Value) (reset : Ext State unit)
    state fuel (w : World State) :
  @commit U State State_StateClass w = Some (Raise NotImplementedError, w)
  ∧ ∃ w',
      @run_fn U State State_StateClass I func reset state (Datatypes.S fuel) w
        = Some (Raise NotImplementedError, w')
      ∧ self w' = self w ∧ env w' = env w
      ∧ (state ∉ listeners (notification_manager w'))
      ∧ calls w'
        = calls w ++ [CallInit; CallRegisterListener state;
                      CallRemoveListener state].
Proof.
  split; [reflexivity|]. eexists. split; [reflexivity|]. simpl.
  do 2 (split; [done|]). split.
  - intros [_ Hn]%elem_of_difference. apply Hn. by apply elem_of_singleton.
  - by rewrite <- !(assoc_L (++)).
Qed.

End BaseStateTheory.

(** ** The further properties on the concrete universe *)

Section MoreExamples.
Import Demo Demo2.
#[local] Existing Instance demo_universe.
#[local] Existing Instance demo_invoke.

(** The demo callbacks keep every tracked name an attribute. *)
Lemma demo_callbacks_keep_live c s e r s' e' :
  invoke c (s, e) = Some (r, (s', e')) → tracked_live s → tracked_live s'.
Proof.
  unfold invoke, demo_invoke. simpl.
  destruct (String.eqb c "boom"); [by intros [= _ <- _]|].
  destruct (String.eqb c "lr"); intros [= _ <- _]; [|done].
  unfold tracked_live. simpl. rewrite dom_insert_L. set_solver.
Qed.

(** With the transport down, the first [sync()] ends the loop. *)
Lemma run_loop_prelude_failure_witness :
  run_loop demo_func demo_reset 1 false demo_cut_off
  = Some (Raise (OtherError "transport"), after sync demo_cut_off).
Proof.
  apply (run_loop_prelude_failure demo_func demo_reset 0 false demo_cut_off).
  vm_compute. reflexivity.
Defined.

(** The demo computation at its third call returns at once. *)
Lemma run_fn_first_pass_returns_witness :
  run_fn demo_func demo_reset 7 1
    demo_third
  = Some (Ok 42,
          after (remove_listener 7)
            (after (call_ext CallFunc demo_func)
               (after sync
                  (after (notification_manager_init;; register_listener 7)
                     demo_third)))).
Proof.
  apply (run_fn_first_pass_returns demo_func demo_reset 7 0
           demo_third
           (after sync
              (after (notification_manager_init;; register_listener 7)
                 demo_third))).
  - vm_compute. reflexivity.
  - vm_compute. reflexivity.
Defined.

(** One participant with timestamp 100 pending, one without: the second,
    which saw nothing itself, comes back with the signal all the same and
    with its field where it was. *)
Lemma update_round_effect_witness :
  ∃ r w',
    update_round [demo_pending; demo_quiet] !! 1%nat = Some (Some (r, w'))
    ∧ _host_messages (base w') = []
    ∧ _last_updated_timestamp (base w') = largest_seen demo_quiet
    ∧ r = Raise HostsUpdatedException.
Proof.
  destruct (update_round_effect [demo_pending; demo_quiet] 1 demo_quiet)
    as (r & w' & Hout & Hq & Hl & _ & _ & Hr).
  - reflexivity.
  - exists r, w'. do 3 (split; [done|]). apply Hr.
    exists demo_pending, 100. split; [apply list_elem_of_here|].
    split; [apply list_elem_of_here|]. vm_compute. reflexivity.
Defined.

(** After the commit that took timestamp 100, nothing is left to count. *)
Lemma host_updates_counted_once_witness :
  local_updated (after _update_known_hosts demo_pending) = false
  ∧ _last_updated_timestamp (base (after _update_known_hosts demo_pending))
    = 100.
Proof.
  destruct (host_updates_counted_once demo_pending
              (Raise HostsUpdatedException)
              (after _update_known_hosts demo_pending))
    as (_ & Hl & Hflag & _).
  - vm_compute. reflexivity.
  - split; [exact Hflag|]. etrans; [exact Hl|]. vm_compute. reflexivity.
Defined.

(** With the epoch attribute deleted, [save()] and [commit()] raise. *)
Lemma save_fails_iff_attribute_missing_witness :
  ObjectState_save demo_deleted = Some (Raise AttributeError, demo_deleted)
  ∧ commit demo_deleted = Some (Raise AttributeError, demo_deleted).
Proof.
  destruct (save_fails_iff_attribute_missing demo_deleted)
    as ([Hfail _] & Hcommit & _).
  assert (ObjectState_save demo_deleted
          = Some (Raise AttributeError, demo_deleted)) as Hsave.
  { apply Hfail. exists "epoch"%string. split.
    - apply elem_of_dom. exists 5. vm_compute. reflexivity.
    - vm_compute. reflexivity. }
  split; [exact Hsave|exact (Hcommit Hsave)].
Defined.

(** A commit of the demo object keeps every tracked name an attribute. *)
Lemma tracked_live_invariant_witness :
  tracked_live (self (after commit demo_pending))
  ∧ ∃ w2, ObjectState_save (after commit demo_pending) = Some (Ok tt, w2).
Proof.
  destruct (tracked_live_invariant bcast_self ∅ 0 OpCommit demo_pending
              (Raise HostsUpdatedException) (after commit demo_pending))
    as (_ & Hlive & _ & Hsave).
  - apply demo_callbacks_keep_live.
  - apply tracked_live_set_attrs.
  - vm_compute. reflexivity.
  - split; [exact Hlive|exact Hsave].
Defined.

(** An epoch rebound to 9 and not saved is back at 5 after a [sync()] in
    which this worker is the source. *)
Lemma sync_from_self_is_restore_witness :
  ∃ w1,
    ObjectState_sync (demo_world (@setattr demo_universe "epoch" 9 demo_state))
      = Some (Ok tt, w1)
    ∧ attributes (self w1) !! "epoch"%string = Some 5.
Proof.
  destruct (sync_from_self_is_restore
              (demo_world (@setattr demo_universe "epoch" 9 demo_state)) O)
    as (w1 & w2 & Hsync & _ & _ & Hattr).
  - vm_compute. reflexivity.
  - exists w1. split; [exact Hsync|]. apply Hattr. vm_compute. reflexivity.
Defined.

(** With the transport down, [sync()] raises and the object stays. *)
Lemma sync_broadcast_failure_witness :
  ∃ w1,
    ObjectState_sync demo_cut_off = Some (Raise (OtherError "transport"), w1)
    ∧ self w1 = self demo_cut_off.
Proof.
  destruct (sync_broadcast_failure demo_cut_off (OtherError "transport") O)
    as (w1 & Hsync & Hself & _).
  - intros Hempty. vm_compute in Hempty. discriminate Hempty.
  - vm_compute. reflexivity.
  - exists w1. split; [exact Hsync|exact Hself].
Defined.

(** A second [save()] of the demo object changes nothing. *)
Lemma restore_save_compose_witness :
  ObjectState_save
    (after save (demo_world (@setattr demo_universe "epoch" 7 demo_state)))
  = Some (Ok tt,
          after save
            (demo_world (@setattr demo_universe "epoch" 7 demo_state))).
Proof.
  destruct (restore_save_compose
              (demo_world (@setattr demo_universe "epoch" 7 demo_state)))
    as (_ & _ & Hsave).
  apply Hsave. vm_compute. reflexivity.
Defined.

(** On the object whose epoch attribute was deleted [save()] raises, but
    after [restore()] it returns. *)
Example save_after_restore_recovers :
  ObjectState_save demo_deleted = Some (Raise AttributeError, demo_deleted)
  ∧ ∃ w', (ObjectState_restore;; ObjectState_save) demo_deleted
          = Some (Ok tt, w')
       ∧ attributes (self w') !! "epoch"%string = Some 5.
Proof. split; [vm_compute; reflexivity|]. eexists. vm_compute. done. Qed.

(** The three passes of the demo computation: two resets, three calls of
    the computation. *)
Lemma run_fn_calls_witness :
  ∃ l,
    calls (after (run_fn demo_func demo_reset 7 10) (demo_world demo_state))
      = [CallInit; CallRegisterListener 7] ++ l ++ [CallRemoveListener 7]
    ∧ count_calls is_func l = (count_calls is_reset l + 1)%nat.
Proof.
  destruct (run_fn_calls demo_func demo_reset 7 10 (demo_world demo_state)
              (Ok 42)
              (after (run_fn demo_func demo_reset 7 10)
                 (demo_world demo_state)))
    as (l & Hl & _ & _ & _ & Hok).
  - vm_compute. reflexivity.
  - exists l. split; [exact Hl|]. by apply (Hok 42).
Defined.

End MoreExamples.

Section GrowingExamples.
Import Demo Demo2.
#[local] Existing Instance demo_universe.
#[local] Existing Instance growing_invoke.

Lemma growing_callbacks_extend : callbacks_extend.
Proof.
  intros c s e r s' e'. unfold invoke, growing_invoke. simpl.
  destruct (String.eqb c "grow"); intros [= _ <- _]; simpl.
  - by eexists.
  - exists []. by rewrite app_nil_r.
Qed.

(** The callback grow registers late during the walk, and late is invoked
    in that same walk, after every callback registered before it. *)
Lemma on_reset_invokes_late_registrations_witness :
  ∃ more : list string,
    _reset_callbacks (base (after (on_reset 5) demo_registered))
    = ["a"; "grow"; "b"]%string ++ more
    ∧ calls (after (on_reset 5) demo_registered)
      = CallCallback <$> (["a"; "grow"; "b"]%string ++ more).
Proof.
  destruct (@on_reset_invokes_late_registrations demo_universe ObjectState
              _ growing_invoke 5 demo_registered
              (after (on_reset 5) demo_registered))
    as (more & Hl & Hcalls).
  - apply growing_callbacks_extend.
  - vm_compute. reflexivity.
  - exists more. split; [exact Hl|exact Hcalls].
Defined.

(** The walk with the callback grow, call by call. *)
Example on_reset_growing :
  calls (after (on_reset 5) demo_registered)
  = CallCallback <$> ["a"; "grow"; "b"; "late"]%string.
Proof. vm_compute. reflexivity. Qed.

End GrowingExamples.

Section HeapExamples.
Import Demo3.
#[local] Existing Instance heap_universe.

(** [restore()] does not undo a change made in place:
    after [save()], [state.hist.append(2)] and [restore()], hist is bound
    to the list it was bound to, and that list is [1; 2]. *)
Example restore_keeps_in_place_change :
  ∃ w1 w3,
    ObjectState_save heap_world = Some (Ok tt, w1)
    ∧ ObjectState_restore (append_hist w1) = Some (Ok tt, w3)
    ∧ getattr (self w3) "hist" = Some 0%nat
    ∧ env w3 !! 0%nat = Some [1; 2].
Proof. eexists _, _. vm_compute. repeat split. Qed.

End HeapExamples.
